(** * Gesture-driven particle scene (src/index.tsx)

    A shallow embedding of the scene-state controller, the placement
    generator and the motion integrator of [src/index.tsx], followed by
    the properties of the specification that concern them.

    Numbers.  JavaScript numbers are modelled as real numbers ([R]): the
    arithmetic of the program is read as exact arithmetic, [Math.sin],
    [Math.cos], [Math.acos] and [Math.hypot] as the real functions.  All
    statements below are statements about this exact-arithmetic reading
    of the code; rounding is outside the model.

    Randomness.  [Math.random()] reads a hidden global generator.  It is
    modelled as an infinite stream of draws together with a cursor; every
    call returns the draw under the cursor and advances it.

    Object identity.  The array [particles] is append-only, so a
    reference to a [Particle] is modelled as its index in that array;
    [this === STATE.targetPhoto] becomes a comparison of indices. *)

From Stdlib Require Import Reals Lra Lia List ZArith Bool PeanoNat.
Import ListNotations.

Open Scope R_scope.

(** ** three.js value types *)

Record Vector3 := mkVector3 { vx : R; vy : R; vz : R }.
Record Euler := mkEuler { ex : R; ey : R; ez : R }.

(** [new THREE.Vector3()] and [new THREE.Euler()] *)
Definition Vector3_zero : Vector3 := mkVector3 0 0 0.
Definition Euler_zero : Euler := mkEuler 0 0 0.

(** [Vector3.multiplyScalar(s)] *)
Definition multiplyScalar (v : Vector3) (s : R) : Vector3 :=
  mkVector3 (vx v * s) (vy v * s) (vz v * s).

(** [Vector3.lerp(v, alpha)]: [this.x += (v.x - this.x) * alpha], per axis *)
Definition Vector3_lerp (this v : Vector3) (alpha : R) : Vector3 :=
  mkVector3 (vx this + (vx v - vx this) * alpha)
            (vy this + (vy v - vy this) * alpha)
            (vz this + (vz v - vz this) * alpha).

(** [THREE.MathUtils.lerp(x, y, t)] *)
Definition MathUtils_lerp (x y t : R) : R := (1 - t) * x + t * y.

(** [Math.hypot(a, b)] *)
Definition Math_hypot (a b : R) : R := sqrt (a * a + b * b).

(** [Math.floor] *)
Definition Math_floor (x : R) : Z := Int_part x.

(** Euclidean length and distance, used to state the geometric claims. *)
Definition Vector3_length (v : Vector3) : R :=
  sqrt (vx v * vx v + vy v * vy v + vz v * vz v).

Definition distanceTo (a b : Vector3) : R :=
  Vector3_length (mkVector3 (vx a - vx b) (vy a - vy b) (vz a - vz b)).

(** ** The random source *)

Record Rng := mkRng { stream : nat -> R; cursor : nat }.

(** Every draw of [Math.random()] lies in [0, 1). *)
Definition valid_rng (g : Rng) : Prop := forall n, 0 <= stream g n < 1.

(** The [k]-th draw still to come. *)
Definition draw (g : Rng) (k : nat) : R := stream g (k + cursor g).

(** The generator after [k] calls. *)
Definition advance (k : nat) (g : Rng) : Rng :=
  mkRng (stream g) (k + cursor g).

Definition Rand (A : Type) : Type := Rng -> A * Rng.

Definition ret {A} (a : A) : Rand A := fun g => (a, g).

Definition bind {A B} (c : Rand A) (k : A -> Rand B) : Rand B :=
  fun g => let (a, g') := c g in k a g'.

Notation "x <- c ;; k" := (bind c (fun x => k))
  (at level 61, c at next level, right associativity).

Definition Math_random : Rand R :=
  fun g => (stream g (cursor g), mkRng (stream g) (S (cursor g))).

(** ** Data model *)

(** [STATE.mode]: 'TREE', 'SCATTER', 'FOCUS' *)
Inductive Mode := TREE | SCATTER | FOCUS.

(** [Particle.type]: 'ORNAMENT', 'PHOTO', 'DUST', 'CANDY' *)
Inductive PType := ORNAMENT | PHOTO | DUST | CANDY.

Definition PType_eqb (a b : PType) : bool :=
  match a, b with
  | ORNAMENT, ORNAMENT | PHOTO, PHOTO | DUST, DUST | CANDY, CANDY => true
  | _, _ => false
  end.

Definition Mode_eqb (a b : Mode) : bool :=
  match a, b with
  | TREE, TREE | SCATTER, SCATTER | FOCUS, FOCUS => true
  | _, _ => false
  end.

(** The part of a [THREE.Object3D] the program reads and writes.
    [rotation] and [quaternion] are two views of one orientation which
    three.js keeps in step; the Euler view is the one stored here. *)
Record Object3D := mkObject3D {
  position : Vector3;
  rotation : Euler;
  scale : Vector3
}.

(** [new THREE.Mesh(..)] / [new THREE.Group()] before any change *)
Definition Object3D_new : Object3D :=
  mkObject3D Vector3_zero Euler_zero (mkVector3 1 1 1).

Record Particle := mkParticle {
  mesh : Object3D;
  type : PType;
  baseScale : Vector3;
  treePos : Vector3;
  treeRot : Euler;
  scatterPos : Vector3;
  scatterVel : Vector3
}.

Record HandRotation := mkHandRotation { hx : R; hy : R }.

Record STATE := mkSTATE {
  mode : Mode;
  targetPhoto : option nat;
  handRotation : HandRotation;
  isLoaded : bool
}.

(** The initial value of the global [STATE]. *)
Definition STATE_init : STATE :=
  mkSTATE TREE None (mkHandRotation 0 0) false.

(** Everything the modelled functions read or write. *)
Record World := mkWorld {
  state : STATE;
  particles : list Particle;
  mainGroup_rotation : Euler;
  dustSystem_rotation : Euler;
  lastVideoTime : R;
  random : Rng
}.

(** One hand landmark of the tracker. *)
Record Landmark := mkLandmark { lx : R; ly : R; lz : R }.

(** Field setters *)
Definition set_mesh (m : Object3D) (p : Particle) : Particle :=
  mkParticle m (type p) (baseScale p) (treePos p) (treeRot p)
             (scatterPos p) (scatterVel p).

Definition set_targets (sp tp : Vector3) (tr : Euler) (p : Particle)
  : Particle :=
  mkParticle (mesh p) (type p) (baseScale p) tp tr sp (scatterVel p).

Definition set_state (s : STATE) (w : World) : World :=
  mkWorld s (particles w) (mainGroup_rotation w) (dustSystem_rotation w)
          (lastVideoTime w) (random w).

Definition set_particles (ps : list Particle) (w : World) : World :=
  mkWorld (state w) ps (mainGroup_rotation w) (dustSystem_rotation w)
          (lastVideoTime w) (random w).

Definition set_random (g : Rng) (w : World) : World :=
  mkWorld (state w) (particles w) (mainGroup_rotation w)
          (dustSystem_rotation w) (lastVideoTime w) g.

Definition set_lastVideoTime (t : R) (w : World) : World :=
  mkWorld (state w) (particles w) (mainGroup_rotation w)
          (dustSystem_rotation w) t (random w).

(** The three layout targets of a particle. *)
Definition targets (p : Particle) : Vector3 * Euler * Vector3 :=
  (treePos p, treeRot p, scatterPos p).

(** ** Placement generator *)

(** [Particle.calculatePositions()] (lines 164-198).  The draws are
    taken in the order the source evaluates them. *)
Definition calculatePositions (this : Particle) : Rand Particle :=
  u <- Math_random ;;
  v <- Math_random ;;
  let theta := 2 * PI * u in
  let phi := acos (2 * v - 1) in
  w <- Math_random ;;
  let r := 8 + w * 12 in
  let sp := mkVector3 (r * sin phi * cos theta)
                      (r * sin phi * sin theta)
                      (r * cos phi) in
  h <- Math_random ;;
  let y := h * 30 - 15 in
  let maxRadius := 12 in
  let radius := maxRadius * (1 - h) + 0.5 in
  let angle := h * 50 in
  let jitter := 1.0 in
  jx <- Math_random ;;
  jz <- Math_random ;;
  let tp := mkVector3 (cos angle * radius + (jx - 0.5) * jitter)
                      y
                      (sin angle * radius + (jz - 0.5) * jitter) in
  if PType_eqb (type this) CANDY then
    roll <- Math_random ;;
    ret (set_targets sp tp (mkEuler PI (- angle) (roll * 0.5)) this)
  else
    ret (set_targets sp tp (mkEuler 0 (- angle) 0) this).

(** [new Particle(mesh, type)] (lines 144-162) *)
Definition Particle_new (m : Object3D) (t : PType) : Rand Particle :=
  a <- Math_random ;;
  b <- Math_random ;;
  c <- Math_random ;;
  let this := mkParticle m t (scale m) Vector3_zero Euler_zero Vector3_zero
                (multiplyScalar (mkVector3 (a - 0.5) (b - 0.5) (c - 0.5))
                                0.02) in
  this <- calculatePositions this ;;
  rx <- Math_random ;;
  ry <- Math_random ;;
  ret (set_mesh (mkObject3D (scatterPos this)
                            (mkEuler (rx * PI) (ry * PI) 0)
                            (scale (mesh this)))
                this).

Section Scene.

(** three.js orientation smoothing, taken as given: the Euler view of an
    object's orientation after
    [mesh.quaternion.slerp(new THREE.Quaternion().setFromEuler(target), t)],
    as a function of the orientation before, the target and [t]. *)
Variable quaternion_slerp : Euler -> Euler -> R -> Euler.

(** ** Motion integrator *)

(** [this === STATE.targetPhoto] *)
Definition is_targetPhoto (st : STATE) (self : nat) : bool :=
  match targetPhoto st with
  | Some t => Nat.eqb self t
  | None => false
  end.

(** "Lerp logic" (lines 232-240), shared by the TREE and FOCUS branches. *)
Definition lerp_logic (st : STATE) (targetPos targetScale : Vector3)
    (targetRot : Euler) (this : Particle) : Particle :=
  let m := mesh this in
  let pos := Vector3_lerp (position m) targetPos 0.05 in
  let sc := Vector3_lerp (scale m) targetScale 0.05 in
  let rot := if negb (Mode_eqb (mode st) SCATTER)
             then quaternion_slerp (rotation m) targetRot 0.05
             else rotation m in
  set_mesh (mkObject3D pos rot sc) this.

(** [Particle.update(dt)] (lines 200-241); [self] is the particle's own
    index in [particles]. *)
Definition update (st : STATE) (self : nat) (dt : R) (this : Particle)
  : Particle :=
  match mode st with
  | TREE =>
      lerp_logic st (treePos this) (baseScale this) (treeRot this) this
  | SCATTER =>
      let targetPos := scatterPos this in
      let m := mesh this in
      let rot := mkEuler (ex (rotation m) + vx (scatterVel this))
                         (ey (rotation m) + vy (scatterVel this))
                         (ez (rotation m)) in
      set_mesh (mkObject3D (Vector3_lerp (position m) targetPos 0.05)
                           rot (scale m)) this
  | FOCUS =>
      if is_targetPhoto st self then
        lerp_logic st (mkVector3 0 2 35)
                   (multiplyScalar (baseScale this) 4.5)
                   (mkEuler 0 0 0) this
      else
        lerp_logic st (multiplyScalar (scatterPos this) 1.5)
                   (baseScale this) Euler_zero this
  end.

(** The position an [update] smooths the particle's position towards. *)
Definition targetPos_of (st : STATE) (self : nat) (this : Particle)
  : Vector3 :=
  match mode st with
  | TREE => treePos this
  | SCATTER => scatterPos this
  | FOCUS => if is_targetPhoto st self then mkVector3 0 2 35
             else multiplyScalar (scatterPos this) 1.5
  end.

(** [particles.forEach(p => p.update(delta))], from index [i] on. *)
Fixpoint forEach_update (st : STATE) (delta : R) (i : nat)
    (ps : list Particle) : list Particle :=
  match ps with
  | [] => []
  | p :: rest => update st i delta p :: forEach_update st delta (S i) rest
  end.

(** One pass of [animate()] (lines 445-466) with clock delta [delta];
    the draw call and the re-queueing are outside the model. *)
Definition animate (delta : R) (w : World) : World :=
  let st := state w in
  let ps := forEach_update st delta 0 (particles w) in
  let d := dustSystem_rotation w in
  let dust := mkEuler (ex d) (ey d + 0.05 * delta) (ez d) in
  let g := mainGroup_rotation w in
  let gy := MathUtils_lerp (ey g) (hy (handRotation st)) 0.05 in
  let gx := MathUtils_lerp (ex g) (hx (handRotation st)) 0.05 in
  let gy := if Mode_eqb (mode st) TREE then gy + 0.1 * delta else gy in
  mkWorld st ps (mkEuler gx gy (ez g)) dust (lastVideoTime w) (random w).

(** [n] consecutive updates of one particle under an unchanged [STATE],
    one clock delta per tick. *)
Fixpoint updates (st : STATE) (self : nat) (dts : list R)
    (this : Particle) : Particle :=
  match dts with
  | [] => this
  | dt :: rest => updates st self rest (update st self dt this)
  end.

(** Consecutive passes of [animate], one clock delta per pass. *)
Fixpoint animates (deltas : list R) (w : World) : World :=
  match deltas with
  | [] => w
  | delta :: rest => animates rest (animate delta w)
  end.

(** ** Content generation *)

(** [addMesh(mesh, type)] (lines 246-251): returns the new particle's
    index together with the new world. *)
Definition addMesh (m : Object3D) (t : PType) (w : World) : nat * World :=
  let (p, g) := Particle_new m t (random w) in
  (length (particles w),
   set_random g (set_particles (particles w ++ [p]) w)).

(** Apply a randomised method to the particle stored at index [i]. *)
Definition call_at (i : nat) (f : Particle -> Rand Particle) (w : World)
  : World :=
  match nth_error (particles w) i with
  | None => w
  | Some p =>
      let (p', g) := f p (random w) in
      set_random g
        (set_particles (firstn i (particles w) ++ p' ::
                        skipn (S i) (particles w)) w)
  end.

(** [addPhotoToScene(texture)] (lines 294-311).  The texture only
    reaches the renderer's material and is not part of the model. *)
Definition addPhotoToScene (w : World) : World :=
  let photoGroup := Object3D_new in
  let (p, w1) := addMesh photoGroup PHOTO w in
  call_at p calculatePositions w1.

(** The texture-loaded callback of the upload handler (lines 326-330). *)
Definition upload_onload (w : World) : World :=
  let w1 := addPhotoToScene w in
  set_state (mkSTATE TREE (targetPhoto (state w1))
                     (handRotation (state w1)) (isLoaded (state w1))) w1.

(** ** Gesture classification and the mode state machine *)

(** [particles.filter(p => p.type === 'PHOTO')], as indices. *)
Definition photos_of (ps : list Particle) : list nat :=
  map fst (filter (fun ip => PType_eqb (type (snd ip)) PHOTO)
                  (combine (seq 0 (length ps)) ps)).

(** [pinchDist] (line 404) *)
Definition pinchDist (thumb index : Landmark) : R :=
  Math_hypot (lx thumb - lx index) (ly thumb - ly index).

(** [avgTipDist] (lines 407-411) *)
Definition avgTipDist (wrist : Landmark) (tips : list Landmark) : R :=
  fold_left (fun acc tip =>
               acc + Math_hypot (lx tip - lx wrist) (ly tip - ly wrist))
            tips 0 / 4.

(** [photos[Math.floor(Math.random() * photos.length)]]; an index
    outside the array reads [undefined]. *)
Definition pick (photos : list nat) (u : R) : option nat :=
  let k := Math_floor (u * INR (length photos)) in
  if (k <? 0)%Z then None else nth_error photos (Z.to_nat k).

(** The "Logic" block (lines 414-429). *)
Definition gesture_logic (pinch avgTip : R) (ps : list Particle)
    (st : STATE) : Rand STATE :=
  if Rlt_dec pinch 0.05 then
    let st1 := mkSTATE FOCUS (targetPhoto st) (handRotation st)
                       (isLoaded st) in
    match targetPhoto st with
    | Some _ => ret st1
    | None =>
        let photos := photos_of ps in
        if (0 <? length photos)%nat then
          u <- Math_random ;;
          ret (mkSTATE FOCUS (pick photos u) (handRotation st)
                       (isLoaded st))
        else ret st1
    end
  else if Rlt_dec avgTip 0.25 then
    ret (mkSTATE TREE None (handRotation st) (isLoaded st))
  else if Rgt_dec avgTip 0.4 then
    ret (mkSTATE SCATTER None (handRotation st) (isLoaded st))
  else ret st.

(** The "Interaction (Rotation)" block (lines 431-436). *)
Definition set_handRotation (palm : Landmark) (st : STATE) : STATE :=
  mkSTATE (mode st) (targetPhoto st)
          (mkHandRotation ((ly palm - 0.5) * 1) ((lx palm - 0.5) * 2))
          (isLoaded st).

(** The body of [predictWebcam] for one detected hand [lm] (lines
    395-436).  Reading a coordinate of a missing landmark throws; that
    is the result [None]. *)
Definition on_hand (lm : list Landmark) (w : World) : option World :=
  match nth_error lm 4, nth_error lm 8, nth_error lm 0,
        nth_error lm 12, nth_error lm 16, nth_error lm 20,
        nth_error lm 9 with
  | Some thumb, Some index, Some wrist, Some t12, Some t16, Some t20,
    Some palm =>
      let tips := [index; t12; t16; t20] in
      let (st, g) := gesture_logic (pinchDist thumb index)
                                   (avgTipDist wrist tips)
                                   (particles w) (state w) (random w) in
      Some (set_random g (set_state (set_handRotation palm st) w))
  | _, _, _, _, _, _, _ => None
  end.

(** One run of [predictWebcam()] (lines 389-440).  [handLandmarker]
    tells whether the tracker is initialised, [currentTime] is
    [video.currentTime], and [landmarks] is what
    [handLandmarker.detectForVideo] returns for the frame. *)
Definition predictWebcam (handLandmarker : bool) (currentTime : R)
    (landmarks : list (list Landmark)) (w : World) : option World :=
  if handLandmarker then
    if Req_dec_T currentTime (lastVideoTime w) then Some w
    else
      let w := set_lastVideoTime currentTime w in
      match landmarks with
      | lm :: _ => on_hand lm w
      | [] => Some w
      end
  else Some w.

End Scene.

(** A sample orientation smoothing (component-wise interpolation of the
    Euler angles), used to instantiate [quaternion_slerp] where a
    statement is evaluated at a concrete input. *)
Definition Euler_lerp (cur target : Euler) (t : R) : Euler :=
  mkEuler (MathUtils_lerp (ex cur) (ex target) t)
          (MathUtils_lerp (ey cur) (ey target) t)
          (MathUtils_lerp (ez cur) (ez target) t).

(** A generator whose every draw is [c]. *)
Definition const_rng (c : R) : Rng := mkRng (fun _ => c) 0.

(** The scatter position and the tree position and orientation that one
    run of [calculatePositions] produces from the next draws of [g]. *)
Definition scatter_of (g : Rng) : Vector3 :=
  let theta := 2 * PI * draw g 0 in
  let phi := acos (2 * draw g 1 - 1) in
  let r := 8 + draw g 2 * 12 in
  mkVector3 (r * sin phi * cos theta) (r * sin phi * sin theta)
            (r * cos phi).

Definition tree_radius (h : R) : R := 12 * (1 - h) + 0.5.

Definition treePos_of (g : Rng) : Vector3 :=
  let h := draw g 3 in
  mkVector3 (cos (h * 50) * tree_radius h + (draw g 4 - 0.5) * 1.0)
            (h * 30 - 15)
            (sin (h * 50) * tree_radius h + (draw g 5 - 0.5) * 1.0).

Definition treeRot_of (t : PType) (g : Rng) : Euler :=
  match t with
  | CANDY => mkEuler PI (- (draw g 3 * 50)) (draw g 6 * 0.5)
  | _ => mkEuler 0 (- (draw g 3 * 50)) 0
  end.

(** Number of draws one run of [calculatePositions] takes. *)
Definition draws_of (t : PType) : nat :=
  match t with CANDY => 7%nat | _ => 6%nat end.


(** ** Derived notions used in the statements *)

(** [lm[i]] for a hand that has the landmark. *)
Definition landmark (lm : list Landmark) (i : nat) : Landmark :=
  nth i lm (mkLandmark 0 0 0).

(** [pinchDist] and [avgTipDist] of a hand, as [predictWebcam] computes
    them from landmarks 4, 8 and 0, 8, 12, 16, 20. *)
Definition hand_pinchDist (lm : list Landmark) : R :=
  pinchDist (landmark lm 4) (landmark lm 8).

Definition hand_avgTipDist (lm : list Landmark) : R :=
  avgTipDist (landmark lm 0)
             [landmark lm 8; landmark lm 12; landmark lm 16; landmark lm 20].

(** The world a detection tick with hand [lm] on a new frame at time [t]
    leads to, when all landmarks are present. *)
Definition after_hand (t : R) (lm : list Landmark) (w : World) : World :=
  let w1 := set_lastVideoTime t w in
  let (st, g) := gesture_logic (hand_pinchDist lm) (hand_avgTipDist lm)
                               (particles w1) (state w1) (random w1) in
  set_random g (set_state (set_handRotation (landmark lm 9) st) w1).

(** ** Sample inputs *)

(** The world before any content is generated, with generator [g]. *)
Definition world_start (g : Rng) : World :=
  mkWorld STATE_init [] Euler_zero Euler_zero (-1) g.

(** A generator whose first eleven draws are 0 and all later ones 0.5. *)
Definition rng_step : Rng :=
  mkRng (fun n => if (n <? 11)%nat then 0 else 0.5) 0.

(** A generator whose every draw is 0.75. *)
Definition rng_075 : Rng := const_rng 0.75.

(** The world after one photo has been registered. *)
Definition world_photo : World := addPhotoToScene (world_start (const_rng 0.5)).

(** A hand whose thumb tip is 0.03 above its index tip, every other
    landmark coinciding with the index tip. *)
Definition hand_pinch : list Landmark :=
  repeat (mkLandmark 0.5 0.5 0) 4 ++ [mkLandmark 0.5 0.53 0] ++
  repeat (mkLandmark 0.5 0.5 0) 16.

(** [world_photo] after a detection tick at time 1 that sees
    [hand_pinch]. *)
Definition world_focus : World := after_hand 1 hand_pinch world_photo.

(** An ornament as its constructor leaves it, every draw being 0.75. *)
Definition ornament_075 : Particle :=
  fst (Particle_new Object3D_new ORNAMENT rng_075).

(** A candy as its constructor leaves it, every draw being 0.5. *)
Definition candy_05 : Particle :=
  fst (Particle_new Object3D_new CANDY (const_rng 0.5)).

Definition STATE_scatter : STATE :=
  mkSTATE SCATTER None (mkHandRotation 0 0) true.

Definition STATE_tree : STATE :=
  mkSTATE TREE None (mkHandRotation 0 0) true.

(** Worlds holding [ornament_075] and [candy_05], in mode SCATTER and in
    mode TREE. *)
Definition world_scatter : World :=
  mkWorld STATE_scatter [ornament_075; candy_05] Euler_zero Euler_zero 0
          rng_075.

Definition world_tree : World :=
  mkWorld STATE_tree [ornament_075; candy_05] Euler_zero Euler_zero 0
          rng_075.

(** ** The rest of the scene: construction, detection loop, bulk motion *)

(** [mesh.scale.setScalar(s)] *)
Definition setScalar (s : R) (m : Object3D) : Object3D :=
  mkObject3D (position m) (rotation m) (mkVector3 s s s).

(** One iteration of the ornament loop (lines 255-278).  Geometry and
    material only reach the renderer. *)
Definition ornament_iteration (w : World) : World :=
  let (rand, g) := Math_random (random w) in
  if Rlt_dec rand 0.3 then
    let (s, g) := Math_random g in
    snd (addMesh (setScalar (0.5 + s * 0.5) Object3D_new) ORNAMENT
                 (set_random g w))
  else if Rlt_dec rand 0.5 then
    let (s, g) := Math_random g in
    snd (addMesh (setScalar (0.4 + s * 0.4) Object3D_new) ORNAMENT
                 (set_random g w))
  else if Rlt_dec rand 0.7 then
    snd (addMesh Object3D_new ORNAMENT (set_random g w))
  else if Rlt_dec rand 0.85 then
    snd (addMesh Object3D_new ORNAMENT (set_random g w))
  else
    snd (addMesh Object3D_new CANDY (set_random g w)).

(** [for (let i = 0; i < n; i++) { ... }] (line 254, [n = 1500]) *)
Fixpoint ornaments_loop (n : nat) (w : World) : World :=
  match n with
  | O => w
  | S k => ornaments_loop k (ornament_iteration w)
  end.

(** The dust loop (lines 285-287): [n] entries
    [(Math.random() - 0.5) * 60], in index order. *)
Fixpoint dustPos_fill (n : nat) : Rand (list R) :=
  match n with
  | O => ret []
  | S k =>
      x <- Math_random ;;
      rest <- dustPos_fill k ;;
      ret ((x - 0.5) * 60 :: rest)
  end.

Definition dustCount : nat := 2500.

(** The content generation at load time (lines 253-314), from the
    generator [g]: the ornaments, the dust buffer, the initial photo.
    Returns the world and the dust buffer. *)
Definition init_scene (g : Rng) : World * list R :=
  let w1 := ornaments_loop 1500 (world_start g) in
  let (dustPos, g1) := dustPos_fill (dustCount * 3) (random w1) in
  (addPhotoToScene (set_random g1 w1), dustPos).

(** The detection loop: [predictWebcam] re-queues itself after every
    run that returns; a run that throws ends the loop.  Each frame gives
    [video.currentTime] and the tracker's result. *)
Fixpoint predict_frames (frames : list (R * list (list Landmark)))
    (w : World) : option World :=
  match frames with
  | [] => Some w
  | (t, lms) :: rest =>
      match predictWebcam true t lms w with
      | Some w' => predict_frames rest w'
      | None => None
      end
  end.

(** The scale an [update] in mode TREE or FOCUS smooths towards. *)
Definition targetScale_of (st : STATE) (self : nat) (this : Particle)
  : Vector3 :=
  match mode st with
  | FOCUS => if is_targetPhoto st self
             then multiplyScalar (baseScale this) 4.5
             else baseScale this
  | _ => baseScale this
  end.

(** The focus target, when set, is the index of a PHOTO particle. *)
Definition focus_ok (w : World) : Prop :=
  match targetPhoto (state w) with
  | Some i => exists p, nth_error (particles w) i = Some p /\ type p = PHOTO
  | None => True
  end.

(** What the ornament loop establishes of a particle it adds: the type,
    a uniform scale between 0.4 and 1 (1 for a CANDY) that is also the
    base scale, and the initial position. *)
Definition ornament_made (p : Particle) : Prop :=
  (type p = ORNAMENT \/ type p = CANDY) /\
  (exists s, 0.4 <= s <= 1 /\ baseScale p = mkVector3 s s s /\
             scale (mesh p) = mkVector3 s s s /\
             (type p = CANDY -> s = 1)) /\
  position (mesh p) = scatterPos p.

(** The number of PHOTO particles in a list, and the number of PHOTO
    particles that stand before index [i]. *)
Definition photo_count (ps : list Particle) : nat :=
  length (filter (fun p => PType_eqb (type p) PHOTO) ps).

Definition photo_rank (ps : list Particle) (i : nat) : nat :=
  photo_count (firstn i ps).

(** A world in mode FOCUS with no focus target, holding
    [ornament_075] and [candy_05]. *)
Definition world_pushback : World :=
  mkWorld (mkSTATE FOCUS None (mkHandRotation 0 0) true)
          [ornament_075; candy_05] Euler_zero Euler_zero 0 rng_075.

(** Sum of a list of clock deltas. *)
Definition sum_R (l : list R) : R := fold_right Rplus 0 l.
(** ** Basic facts *)

Lemma calculatePositions_eq (this : Particle) (g : Rng) :
  calculatePositions this g =
  (set_targets (scatter_of g) (treePos_of g) (treeRot_of (type this) g)
               this,
   advance (draws_of (type this)) g).
Proof.
  unfold calculatePositions, bind, Math_random, ret, scatter_of,
    treePos_of, treeRot_of, tree_radius, draws_of, advance, draw.
  destruct (type this); reflexivity.
Qed.

Lemma Particle_new_eq (m : Object3D) (t : PType) (g : Rng) :
  Particle_new m t g =
  (let g3 := advance 3 g in
   let d := draws_of t in
   mkParticle
     (mkObject3D (scatter_of g3)
                 (mkEuler (draw g (3 + d) * PI) (draw g (4 + d) * PI) 0)
                 (scale m))
     t (scale m) (treePos_of g3) (treeRot_of t g3) (scatter_of g3)
     (multiplyScalar
        (mkVector3 (draw g 0 - 0.5) (draw g 1 - 0.5) (draw g 2 - 0.5))
        0.02),
   advance (5 + draws_of t) g).
Proof.
  unfold Particle_new, bind at 1 2 3 4.
  cbn [Math_random stream cursor].
  rewrite calculatePositions_eq.
  cbn [type].
  destruct t; reflexivity.
Qed.

Lemma valid_rng_draw (g : Rng) (k : nat) :
  valid_rng g -> 0 <= draw g k < 1.
Proof. intros H. apply H. Qed.

Lemma valid_rng_advance (g : Rng) (k : nat) :
  valid_rng g -> valid_rng (advance k g).
Proof. intros H n. apply H. Qed.

Lemma valid_const_rng (c : R) : 0 <= c < 1 -> valid_rng (const_rng c).
Proof. intros H n. exact H. Qed.

(** Length of a vector given in spherical coordinates. *)
Lemma spherical_length (r phi theta : R) :
  0 <= r ->
  Vector3_length (mkVector3 (r * sin phi * cos theta)
                            (r * sin phi * sin theta)
                            (r * cos phi)) = r.
Proof.
  intros Hr. unfold Vector3_length. cbn [vx vy vz].
  replace (r * sin phi * cos theta * (r * sin phi * cos theta) +
           r * sin phi * sin theta * (r * sin phi * sin theta) +
           r * cos phi * (r * cos phi))
    with (r * r * ((sin phi)² * ((sin theta)² + (cos theta)²) + (cos phi)²))
    by (unfold Rsqr; ring).
  rewrite (sin2_cos2 theta), Rmult_1_r, (sin2_cos2 phi), Rmult_1_r.
  apply sqrt_square, Hr.
Qed.

Lemma polar_length (r a : R) :
  0 <= r -> Math_hypot (cos a * r) (sin a * r) = r.
Proof.
  intros Hr. unfold Math_hypot.
  replace (cos a * r * (cos a * r) + sin a * r * (sin a * r))
    with (r * r * ((sin a)² + (cos a)²)) by (unfold Rsqr; ring).
  rewrite sin2_cos2, Rmult_1_r. apply sqrt_square, Hr.
Qed.

(** ** Placement generator: ranges *)

(** C7.  Every scatter position that [calculatePositions] produces lies
    at Euclidean distance between 8 and 20 from the origin: the distance
    is exactly the radius draw [8 + w * 12], with [w] the third draw. *)
Theorem scatterPos_radius_range (this : Particle) (g : Rng) :
  valid_rng g ->
  let p := fst (calculatePositions this g) in
  Vector3_length (scatterPos p) = 8 + draw g 2 * 12 /\
  8 <= Vector3_length (scatterPos p) <= 20.
Proof.
  intros Hg p. subst p. rewrite calculatePositions_eq.
  cbn [fst set_targets scatterPos]. unfold scatter_of.
  pose proof (valid_rng_draw g 2 Hg) as Hw.
  rewrite spherical_length by lra.
  lra.
Qed.

(** C8.  Every tree position that [calculatePositions] produces has
    height [y = h * 30 - 15] in [-15, 15] and, before the jitter of
    [-0.5, 0.5] on the two horizontal axes, horizontal radius
    [12 * (1 - h) + 0.5] in [0.5, 12.5], for [h] in [0, 1) the fourth
    draw; the yaw is [- (h * 50)]; a CANDY is flipped by [PI] about x
    and rolled by an angle in [0, 0.5), any other object has no
    rotation about x and z. *)
Theorem treePos_ranges (this : Particle) (g : Rng) :
  valid_rng g ->
  let p := fst (calculatePositions this g) in
  let h := draw g 3 in
  let jx := draw g 4 - 0.5 in
  let jz := draw g 5 - 0.5 in
  (0 <= h < 1) /\
  vy (treePos p) = h * 30 - 15 /\
  -15 <= vy (treePos p) <= 15 /\
  (-0.5 <= jx <= 0.5 /\ -0.5 <= jz <= 0.5) /\
  vx (treePos p) = cos (h * 50) * tree_radius h + jx /\
  vz (treePos p) = sin (h * 50) * tree_radius h + jz /\
  Math_hypot (vx (treePos p) - jx) (vz (treePos p) - jz) = tree_radius h /\
  tree_radius h = 12 * (1 - h) + 0.5 /\
  0.5 <= tree_radius h <= 12.5 /\
  ey (treeRot p) = - (h * 50) /\
  (if PType_eqb (type this) CANDY
   then ex (treeRot p) = PI /\ 0 <= ez (treeRot p) < 0.5
   else ex (treeRot p) = 0 /\ ez (treeRot p) = 0).
Proof.
  intros Hg p h jx jz. subst p. rewrite calculatePositions_eq.
  cbn [fst set_targets treePos treeRot]. unfold treePos_of.
  cbn [vx vy vz]. fold h.
  pose proof (valid_rng_draw g 3 Hg) as Hh. fold h in Hh.
  pose proof (valid_rng_draw g 4 Hg) as H4.
  pose proof (valid_rng_draw g 5 Hg) as H5.
  pose proof (valid_rng_draw g 6 Hg) as H6.
  assert (Hr : 0.5 <= tree_radius h <= 12.5) by (unfold tree_radius; lra).
  repeat split; try (subst jx jz; lra); try (unfold tree_radius; lra).
  - subst jx jz.
    replace (cos (h * 50) * tree_radius h + (draw g 4 - 0.5) * 1.0 -
             (draw g 4 - 0.5)) with (cos (h * 50) * tree_radius h) by lra.
    replace (sin (h * 50) * tree_radius h + (draw g 5 - 0.5) * 1.0 -
             (draw g 5 - 0.5)) with (sin (h * 50) * tree_radius h) by lra.
    apply polar_length. lra.
  - unfold treeRot_of. destruct (type this); reflexivity.
  - unfold treeRot_of. destruct (type this); cbn [PType_eqb ex ez];
      split; try reflexivity; lra.
Qed.

(** ** Motion integrator *)

Lemma sum_squares_nonneg (a b c : R) : 0 <= a * a + b * b + c * c.
Proof. nra. Qed.

Lemma square_diff_pos (x y : R) : x <> y -> 0 < (x - y) * (x - y).
Proof.
  intros H. destruct (Rtotal_order x y) as [Hlt | [Heq | Hgt]];
    [nra | contradiction | nra].
Qed.

Lemma distanceTo_nonneg (a b : Vector3) : 0 <= distanceTo a b.
Proof. apply sqrt_pos. Qed.

Lemma distanceTo_pos (a b : Vector3) : a <> b -> 0 < distanceTo a b.
Proof.
  intros Hab. unfold distanceTo, Vector3_length. cbn [vx vy vz].
  apply sqrt_lt_R0.
  destruct a as [ax ay az], b as [bx b_y bz]. cbn [vx vy vz].
  pose proof (Rle_0_sqr (ax - bx)) as Sx.
  pose proof (Rle_0_sqr (ay - b_y)) as Sy.
  pose proof (Rle_0_sqr (az - bz)) as Sz.
  unfold Rsqr in Sx, Sy, Sz.
  destruct (Req_dec ax bx) as [Hx | Hx];
    [destruct (Req_dec ay b_y) as [Hy | Hy];
     [destruct (Req_dec az bz) as [Hz | Hz] | ] | ].
  - subst. contradiction Hab. reflexivity.
  - pose proof (square_diff_pos az bz Hz). lra.
  - pose proof (square_diff_pos ay b_y Hy). lra.
  - pose proof (square_diff_pos ax bx Hx). lra.
Qed.

(** One [lerp] by 0.05 shrinks the distance to the target by 0.95. *)
Lemma lerp_distance (p t : Vector3) :
  distanceTo (Vector3_lerp p t 0.05) t = 0.95 * distanceTo p t.
Proof.
  unfold distanceTo, Vector3_length, Vector3_lerp. cbn [vx vy vz].
  replace ((vx p + (vx t - vx p) * 0.05 - vx t) *
           (vx p + (vx t - vx p) * 0.05 - vx t) +
           (vy p + (vy t - vy p) * 0.05 - vy t) *
           (vy p + (vy t - vy p) * 0.05 - vy t) +
           (vz p + (vz t - vz p) * 0.05 - vz t) *
           (vz p + (vz t - vz p) * 0.05 - vz t))
    with (0.95 * 0.95 *
          ((vx p - vx t) * (vx p - vx t) + (vy p - vy t) * (vy p - vy t) +
           (vz p - vz t) * (vz p - vz t))).
  2:{ replace 0.95 with (1 - 0.05) by lra. ring. }
  rewrite sqrt_mult by (try apply sum_squares_nonneg; lra).
  rewrite sqrt_square by lra. reflexivity.
Qed.

Section Integrator.

Variable slerp : Euler -> Euler -> R -> Euler.

Lemma update_frame (st : STATE) (self : nat) (dt : R) (this : Particle) :
  let p := update slerp st self dt this in
  type p = type this /\ baseScale p = baseScale this /\
  treePos p = treePos this /\ treeRot p = treeRot this /\
  scatterPos p = scatterPos this /\ scatterVel p = scatterVel this.
Proof.
  unfold update, lerp_logic.
  destruct (mode st); [| | destruct (is_targetPhoto st self)];
    cbn; repeat split.
Qed.

Lemma update_targets (st : STATE) (self : nat) (dt : R) (this : Particle) :
  targets (update slerp st self dt this) = targets this.
Proof.
  destruct (update_frame st self dt this) as (_ & _ & H1 & H2 & H3 & _).
  unfold targets. rewrite H1, H2, H3. reflexivity.
Qed.

Lemma update_position (st : STATE) (self : nat) (dt : R)
    (this : Particle) :
  position (mesh (update slerp st self dt this)) =
  Vector3_lerp (position (mesh this)) (targetPos_of st self this) 0.05.
Proof.
  unfold update, targetPos_of, lerp_logic.
  destruct (mode st); [| | destruct (is_targetPhoto st self)]; reflexivity.
Qed.

Lemma targetPos_of_update (st : STATE) (self : nat) (dt : R)
    (this : Particle) :
  targetPos_of st self (update slerp st self dt this) = targetPos_of st self this.
Proof.
  destruct (update_frame st self dt this) as (_ & _ & H1 & _ & H3 & _).
  unfold targetPos_of. rewrite H1, H3. reflexivity.
Qed.

Lemma targetPos_of_updates (st : STATE) (self : nat) (dts : list R)
    (this : Particle) :
  targetPos_of st self (updates slerp st self dts this) =
  targetPos_of st self this.
Proof.
  revert this. induction dts as [| dt rest IH]; intros this; cbn.
  - reflexivity.
  - rewrite IH. apply targetPos_of_update.
Qed.

Lemma updates_targets (st : STATE) (self : nat) (dts : list R)
    (this : Particle) :
  targets (updates slerp st self dts this) = targets this.
Proof.
  revert this. induction dts as [| dt rest IH]; intros this; cbn.
  - reflexivity.
  - rewrite IH. apply update_targets.
Qed.

Lemma updates_snoc (st : STATE) (self : nat) (dts : list R) (dt : R)
    (this : Particle) :
  updates slerp st self (dts ++ [dt]) this =
  update slerp st self dt (updates slerp st self dts this).
Proof.
  revert this. induction dts as [| d rest IH]; intros this; cbn.
  - reflexivity.
  - apply IH.
Qed.

Lemma update_distance (st : STATE) (self : nat) (dt : R)
    (this : Particle) :
  distanceTo (position (mesh (update slerp st self dt this)))
             (targetPos_of st self this) =
  0.95 * distanceTo (position (mesh this)) (targetPos_of st self this).
Proof. rewrite update_position. apply lerp_distance. Qed.

Lemma updates_distance (st : STATE) (self : nat) (dts : list R)
    (this : Particle) :
  distanceTo (position (mesh (updates slerp st self dts this)))
             (targetPos_of st self this) =
  0.95 ^ length dts *
  distanceTo (position (mesh this)) (targetPos_of st self this).
Proof.
  revert this. induction dts as [| dt rest IH]; intros this; cbn [length].
  - cbn. lra.
  - cbn [updates].
    rewrite <- (targetPos_of_update st self dt this) at 1.
    rewrite IH, targetPos_of_update, update_distance.
    cbn [pow]. lra.
Qed.

Lemma pow_095_small (eps : R) :
  0 < eps -> exists N, forall n, (N <= n)%nat -> 0.95 ^ n < eps.
Proof.
  intros Heps.
  assert (Habs : Rabs 0.95 < 1) by (rewrite Rabs_pos_eq; lra).
  destruct (pow_lt_1_zero 0.95 Habs eps Heps) as [N HN].
  exists N. intros n Hn.
  specialize (HN n Hn). rewrite Rabs_pos_eq in HN; [exact HN |].
  apply pow_le. lra.
Qed.

(** Per particle: convergence of the position under repeated [update]s
    with an unchanged [STATE]. *)
Lemma updates_converge (st : STATE) (self : nat) (this : Particle) :
  let T := targetPos_of st self this in
  let pos := fun dts => position (mesh (updates slerp st self dts this)) in
  (forall dts, targetPos_of st self (updates slerp st self dts this) = T) /\
  (forall dts,
     distanceTo (pos dts) T =
     0.95 ^ length dts * distanceTo (position (mesh this)) T) /\
  (forall dts dt,
     pos dts <> T ->
     distanceTo (pos (dts ++ [dt])) T = 0.95 * distanceTo (pos dts) T /\
     distanceTo (pos (dts ++ [dt])) T < distanceTo (pos dts) T) /\
  (forall dts dt,
     vx T - vx (pos (dts ++ [dt])) = 0.95 * (vx T - vx (pos dts)) /\
     vy T - vy (pos (dts ++ [dt])) = 0.95 * (vy T - vy (pos dts)) /\
     vz T - vz (pos (dts ++ [dt])) = 0.95 * (vz T - vz (pos dts))) /\
  (forall eps, 0 < eps ->
     exists N, forall dts, (N <= length dts)%nat ->
       distanceTo (pos dts) T < eps).
Proof.
  intros T pos.
  assert (Hstep : forall dts dt,
             pos (dts ++ [dt]) = Vector3_lerp (pos dts) T 0.05).
  { intros dts dt. subst pos. cbn beta.
    rewrite updates_snoc, update_position, targetPos_of_updates.
    reflexivity. }
  split; [| split; [| split; [| split]]].
  - intros dts. apply targetPos_of_updates.
  - intros dts. apply updates_distance.
  - intros dts dt Hne. rewrite Hstep, lerp_distance.
    pose proof (distanceTo_pos _ _ Hne). split; lra.
  - intros dts dt. rewrite Hstep. cbn [Vector3_lerp vx vy vz].
    repeat split; lra.
  - intros eps Heps.
    destruct (Req_dec (distanceTo (position (mesh this)) T) 0) as [H0 | H0].
    + exists 0%nat. intros dts _. subst pos. cbn beta.
      rewrite updates_distance. fold T. rewrite H0. lra.
    + pose proof (distanceTo_nonneg (position (mesh this)) T) as Hd.
      assert (Hd0 : 0 < distanceTo (position (mesh this)) T) by lra.
      destruct (pow_095_small (eps / distanceTo (position (mesh this)) T))
        as [N HN].
      { apply Rdiv_lt_0_compat; assumption. }
      exists N. intros dts Hlen. subst pos. cbn beta.
      rewrite updates_distance. fold T.
      specialize (HN _ Hlen).
      apply (Rmult_lt_compat_r _ _ _ Hd0) in HN.
      replace (eps / distanceTo (position (mesh this)) T *
               distanceTo (position (mesh this)) T) with eps in HN
        by (field; lra).
      exact HN.
Qed.

(** Per particle: one [update] in mode SCATTER. *)
Lemma update_scatter (st : STATE) (self : nat) (dt : R) (this : Particle) :
  mode st = SCATTER ->
  update slerp st self dt this =
  set_mesh (mkObject3D
              (Vector3_lerp (position (mesh this)) (scatterPos this) 0.05)
              (mkEuler (ex (rotation (mesh this)) + vx (scatterVel this))
                       (ey (rotation (mesh this)) + vy (scatterVel this))
                       (ez (rotation (mesh this))))
              (scale (mesh this)))
           this.
Proof. intros Hm. unfold update. rewrite Hm. reflexivity. Qed.

Lemma updates_scatter_scale (st : STATE) (self : nat) (dts : list R)
    (this : Particle) :
  mode st = SCATTER ->
  scale (mesh (updates slerp st self dts this)) = scale (mesh this).
Proof.
  intros Hm. revert this.
  induction dts as [| dt rest IH]; intros this; cbn [updates].
  - reflexivity.
  - rewrite IH, update_scatter by exact Hm. reflexivity.
Qed.

(** *** From the particle to the world *)

Lemma forEach_update_nth (st : STATE) (delta : R) (ps : list Particle)
    (k i : nat) :
  nth_error (forEach_update slerp st delta k ps) i =
  option_map (update slerp st (k + i) delta) (nth_error ps i).
Proof.
  revert k i. induction ps as [| p rest IH]; intros k i.
  - destruct i; reflexivity.
  - destruct i as [| i]; cbn [forEach_update nth_error option_map].
    + rewrite Nat.add_0_r. reflexivity.
    + rewrite IH. replace (S k + i)%nat with (k + S i)%nat by lia.
      reflexivity.
Qed.

Lemma animate_state (delta : R) (w : World) :
  state (animate slerp delta w) = state w.
Proof. reflexivity. Qed.

Lemma animate_nth (delta : R) (w : World) (i : nat) :
  nth_error (particles (animate slerp delta w)) i =
  option_map (update slerp (state w) i delta) (nth_error (particles w) i).
Proof. unfold animate. cbn [particles]. apply forEach_update_nth. Qed.

Lemma animates_state (deltas : list R) (w : World) :
  state (animates slerp deltas w) = state w.
Proof.
  revert w. induction deltas as [| d rest IH]; intros w; cbn [animates].
  - reflexivity.
  - rewrite IH. apply animate_state.
Qed.

Lemma animates_nth (deltas : list R) (w : World) (i : nat) :
  nth_error (particles (animates slerp deltas w)) i =
  option_map (updates slerp (state w) i deltas) (nth_error (particles w) i).
Proof.
  revert w. induction deltas as [| d rest IH]; intros w; cbn [animates updates].
  - destruct (nth_error (particles w) i); reflexivity.
  - rewrite IH, animate_state, animate_nth.
    destruct (nth_error (particles w) i); reflexivity.
Qed.

(** The particle at index [i] after the passes [deltas]. *)
Lemma animates_particle (deltas : list R) (w : World) (i : nat)
    (p : Particle) :
  nth_error (particles w) i = Some p ->
  nth i (particles (animates slerp deltas w)) p =
  updates slerp (state w) i deltas p.
Proof.
  intros H. apply nth_error_nth. rewrite animates_nth, H. reflexivity.
Qed.

(** C6.  In mode TREE or FOCUS, for every particle of the world: over
    consecutive passes of [animate] the position target of the particle
    stays the same, and every pass multiplies the distance between the
    particle's position and that target by exactly 0.95.  After [n]
    passes the distance is [0.95 ^ n] times the initial one; it strictly
    decreases at every pass at which the position differs from the
    target; along each axis the remaining offset keeps its sign and
    shrinks by 0.95, so the target is never passed; and the distance
    falls below every positive bound after finitely many passes. *)
Theorem position_converges (w : World) (i : nat) (p : Particle) :
  mode (state w) = TREE \/ mode (state w) = FOCUS ->
  nth_error (particles w) i = Some p ->
  let T := targetPos_of (state w) i p in
  let after := fun deltas => animates slerp deltas w in
  let pos := fun deltas =>
               position (mesh (nth i (particles (after deltas)) p)) in
  (forall deltas,
     targetPos_of (state (after deltas)) i
                  (nth i (particles (after deltas)) p) = T) /\
  (forall deltas,
     distanceTo (pos deltas) T =
     0.95 ^ length deltas * distanceTo (position (mesh p)) T) /\
  (forall deltas delta,
     pos deltas <> T ->
     distanceTo (pos (deltas ++ [delta])) T =
       0.95 * distanceTo (pos deltas) T /\
     distanceTo (pos (deltas ++ [delta])) T < distanceTo (pos deltas) T) /\
  (forall deltas delta,
     vx T - vx (pos (deltas ++ [delta])) = 0.95 * (vx T - vx (pos deltas)) /\
     vy T - vy (pos (deltas ++ [delta])) = 0.95 * (vy T - vy (pos deltas)) /\
     vz T - vz (pos (deltas ++ [delta])) = 0.95 * (vz T - vz (pos deltas))) /\
  (forall eps, 0 < eps ->
     exists N, forall deltas, (N <= length deltas)%nat ->
       distanceTo (pos deltas) T < eps).
Proof.
  intros _ Hp T after pos.
  destruct (updates_converge (state w) i p)
    as (H1 & H2 & H3 & H4 & H5).
  assert (E : forall deltas,
             nth i (particles (after deltas)) p =
             updates slerp (state w) i deltas p)
    by (intros deltas; apply animates_particle, Hp).
  subst pos T after. cbn beta.
  split; [| split; [| split; [| split]]].
  - intros deltas. rewrite E, animates_state. apply H1.
  - intros deltas. rewrite E. apply H2.
  - intros deltas delta. rewrite !E. apply H3.
  - intros deltas delta. rewrite !E. apply H4.
  - intros eps Heps. destruct (H5 eps Heps) as [N HN].
    exists N. intros deltas Hlen. rewrite E. apply HN, Hlen.
Qed.

(** C3 (as the code has it).  One pass of [animate] in mode SCATTER
    adds, for every particle, the particle's own [scatterVel.x] and
    [scatterVel.y] to the x and y Euler angles of its orientation,
    whatever the clock delta is, and leaves the z angle as it was; the
    particle's position moves 5% of the remaining offset towards its
    [scatterPos], so the distance to [scatterPos] becomes 0.95 times
    what it was. *)
Theorem scatter_tick (w : World) (delta : R) (i : nat) (p : Particle) :
  mode (state w) = SCATTER ->
  nth_error (particles w) i = Some p ->
  exists p',
    nth_error (particles (animate slerp delta w)) i = Some p' /\
    ex (rotation (mesh p')) = ex (rotation (mesh p)) + vx (scatterVel p) /\
    ey (rotation (mesh p')) = ey (rotation (mesh p)) + vy (scatterVel p) /\
    ez (rotation (mesh p')) = ez (rotation (mesh p)) /\
    scatterVel p' = scatterVel p /\ scatterPos p' = scatterPos p /\
    position (mesh p') =
      Vector3_lerp (position (mesh p)) (scatterPos p) 0.05 /\
    distanceTo (position (mesh p')) (scatterPos p) =
      0.95 * distanceTo (position (mesh p)) (scatterPos p).
Proof.
  intros Hm Hp. exists (update slerp (state w) i delta p).
  split; [rewrite animate_nth, Hp; reflexivity |].
  rewrite update_scatter by exact Hm.
  cbn [mesh set_mesh rotation position ex ey ez scatterVel scatterPos].
  repeat split. apply lerp_distance.
Qed.

(** C10.  One pass of [animate] in mode SCATTER leaves the scale of
    every particle unchanged, and so does any number of consecutive
    passes in that mode: the scale keeps the value it had when the mode
    was entered. *)
Theorem scatter_keeps_scale (w : World) (i : nat) (p : Particle) :
  mode (state w) = SCATTER ->
  nth_error (particles w) i = Some p ->
  (forall delta,
     option_map (fun q => scale (mesh q))
                (nth_error (particles (animate slerp delta w)) i) =
     Some (scale (mesh p))) /\
  (forall deltas,
     option_map (fun q => scale (mesh q))
                (nth_error (particles (animates slerp deltas w)) i) =
     Some (scale (mesh p))).
Proof.
  intros Hm Hp. split.
  - intros delta. rewrite animate_nth, Hp. cbn [option_map].
    rewrite update_scatter by exact Hm. reflexivity.
  - intros deltas. rewrite animates_nth, Hp. cbn [option_map].
    rewrite updates_scatter_scale by exact Hm. reflexivity.
Qed.

End Integrator.

(** ** Detection tick *)

Lemma landmark_nth_error (lm : list Landmark) (i : nat) :
  (i < length lm)%nat -> nth_error lm i = Some (landmark lm i).
Proof. intros H. apply nth_error_nth'. exact H. Qed.

Lemma on_hand_eq (t : R) (lm : list Landmark) (w : World) :
  (21 <= length lm)%nat ->
  on_hand lm (set_lastVideoTime t w) = Some (after_hand t lm w).
Proof.
  intros Hlen. unfold on_hand, after_hand, hand_pinchDist, hand_avgTipDist.
  rewrite !landmark_nth_error by lia.
  destruct (gesture_logic _ _ _ _ _). reflexivity.
Qed.

Lemma predictWebcam_hand (t : R) (lm : list Landmark)
    (rest : list (list Landmark)) (w : World) :
  t <> lastVideoTime w -> (21 <= length lm)%nat ->
  predictWebcam true t (lm :: rest) w = Some (after_hand t lm w).
Proof.
  intros Ht Hlen. unfold predictWebcam.
  destruct (Req_dec_T t (lastVideoTime w)) as [E | _]; [contradiction |].
  apply on_hand_eq, Hlen.
Qed.

(** A detection tick never touches the particles. *)
Lemma predictWebcam_particles (hl : bool) (t : R)
    (lms : list (list Landmark)) (w w' : World) :
  predictWebcam hl t lms w = Some w' -> particles w' = particles w.
Proof.
  unfold predictWebcam. destruct hl; [| now intros [= <-]].
  destruct (Req_dec_T t (lastVideoTime w)); [now intros [= <-] |].
  destruct lms as [| lm rest]; [now intros [= <-] |].
  unfold on_hand.
  repeat match goal with
         | |- context [match nth_error ?l ?i with _ => _ end] =>
             destruct (nth_error l i); try discriminate
         end.
  destruct (gesture_logic _ _ _ _ _). now intros [= <-].
Qed.

Lemma after_hand_mode_target (t : R) (lm : list Landmark) (w : World) :
  let st := fst (gesture_logic (hand_pinchDist lm) (hand_avgTipDist lm)
                               (particles w) (state w) (random w)) in
  mode (state (after_hand t lm w)) = mode st /\
  targetPhoto (state (after_hand t lm w)) = targetPhoto st.
Proof.
  unfold after_hand. cbn [particles state random set_lastVideoTime].
  destruct (gesture_logic _ _ _ _ _). split; reflexivity.
Qed.

(** C9.  On every detection tick with a detected hand the pointer
    signal is recomputed from landmark 9, whatever the gesture: the
    left/right signal [handRotation.y] is [(palm.x - 0.5) * 2] and the
    up/down signal [handRotation.x] is [(palm.y - 0.5) * 1]. *)
Theorem pointer_signal (t : R) (lm : list Landmark)
    (rest : list (list Landmark)) (w : World) :
  t <> lastVideoTime w -> (21 <= length lm)%nat ->
  exists w', predictWebcam true t (lm :: rest) w = Some w' /\
    hy (handRotation (state w')) = (lx (landmark lm 9) - 0.5) * 2 /\
    hx (handRotation (state w')) = (ly (landmark lm 9) - 0.5) * 1.
Proof.
  intros Ht Hlen. exists (after_hand t lm w).
  split; [apply predictWebcam_hand; assumption |].
  unfold after_hand. destruct (gesture_logic _ _ _ _ _).
  split; reflexivity.
Qed.

(** C4.  On a detection tick with a detected hand the mode is decided
    in priority order: [pinchDist < 0.05] gives FOCUS whatever
    [avgTipDist] is; otherwise [avgTipDist < 0.25] gives TREE; otherwise
    [avgTipDist > 0.4] gives SCATTER; otherwise mode and focus target
    stay as they were.  The four sample readings of the specification
    follow, the reading [avgTipDist = 0.45] being taken, as the priority
    order has it, with no pinch. *)
Theorem classifier_priority (t : R) (lm : list Landmark)
    (rest : list (list Landmark)) (w : World) :
  t <> lastVideoTime w -> (21 <= length lm)%nat ->
  exists w', predictWebcam true t (lm :: rest) w = Some w' /\
    let pd := hand_pinchDist lm in
    let ad := hand_avgTipDist lm in
    let m' := mode (state w') in
    let unchanged := m' = mode (state w) /\
                     targetPhoto (state w') = targetPhoto (state w) in
    (pd < 0.05 -> m' = FOCUS) /\
    (~ pd < 0.05 -> ad < 0.25 -> m' = TREE) /\
    (~ pd < 0.05 -> ~ ad < 0.25 -> ad > 0.4 -> m' = SCATTER) /\
    (~ pd < 0.05 -> ~ ad < 0.25 -> ~ ad > 0.4 -> unchanged) /\
    (pd = 0.03 -> m' = FOCUS) /\
    (ad = 0.20 -> pd >= 0.05 -> m' = TREE) /\
    (ad = 0.45 -> pd >= 0.05 -> m' = SCATTER) /\
    (ad = 0.30 -> pd = 0.10 -> unchanged).
Proof.
  intros Ht Hlen. exists (after_hand t lm w).
  split; [apply predictWebcam_hand; assumption |].
  destruct (after_hand_mode_target t lm w) as [Hm Htp].
  cbv zeta. rewrite Hm, Htp. clear Hm Htp.
  unfold gesture_logic.
  destruct (Rlt_dec (hand_pinchDist lm) 0.05) as [Hp | Hp];
    [| destruct (Rlt_dec (hand_avgTipDist lm) 0.25) as [Hf | Hf];
       [| destruct (Rgt_dec (hand_avgTipDist lm) 0.4) as [Ho | Ho]]].
  - assert (Hfocus : mode (fst (match targetPhoto (state w) with
             | Some _ => ret (mkSTATE FOCUS (targetPhoto (state w))
                                (handRotation (state w)) (isLoaded (state w)))
             | None =>
                 if (0 <? length (photos_of (particles w)))%nat
                 then u <- Math_random ;;
                      ret (mkSTATE FOCUS (pick (photos_of (particles w)) u)
                             (handRotation (state w)) (isLoaded (state w)))
                 else ret (mkSTATE FOCUS (targetPhoto (state w))
                             (handRotation (state w)) (isLoaded (state w)))
             end (random w))) = FOCUS).
    { destruct (targetPhoto (state w)); [reflexivity |].
      destruct (0 <? length (photos_of (particles w)))%nat; reflexivity. }
    rewrite Hfocus.
    repeat split; intros; try reflexivity; try contradiction; exfalso; lra.
  - cbn [ret fst mode targetPhoto].
    repeat split; intros; try reflexivity; try contradiction; exfalso; lra.
  - cbn [ret fst mode targetPhoto].
    repeat split; intros; try reflexivity; try contradiction; exfalso; lra.
  - cbn [ret fst mode targetPhoto].
    repeat split; intros; try reflexivity; try contradiction; exfalso; lra.
Qed.

(** ** The focus target *)

Lemma PType_eqb_eq (a b : PType) : PType_eqb a b = true <-> a = b.
Proof. destruct a, b; cbn; split; intros H; congruence. Qed.

Lemma In_combine_seq (ps : list Particle) (k i : nat) (p : Particle) :
  In (i, p) (combine (seq k (length ps)) ps) ->
  (k <= i)%nat /\ nth_error ps (i - k) = Some p.
Proof.
  revert k. induction ps as [| q rest IH]; intros k H; cbn in H.
  - contradiction.
  - destruct H as [H | H].
    + injection H as <- <-. rewrite Nat.sub_diag. split; [lia | reflexivity].
    + apply IH in H. destruct H as [Hk Hn]. split; [lia |].
      replace (i - k)%nat with (S (i - S k)) by lia. exact Hn.
Qed.

(** The indices [photos_of] returns are those of PHOTO particles. *)
Lemma photos_of_spec (ps : list Particle) (id : nat) :
  In id (photos_of ps) ->
  exists p, nth_error ps id = Some p /\ type p = PHOTO.
Proof.
  unfold photos_of. rewrite in_map_iff.
  intros [[i p] [Hfst Hin]]. cbn in Hfst. subst i.
  apply filter_In in Hin. destruct Hin as [Hin Hty]. cbn in Hty.
  apply In_combine_seq in Hin. destruct Hin as [_ Hn].
  rewrite Nat.sub_0_r in Hn.
  exists p. split; [exact Hn | apply PType_eqb_eq, Hty].
Qed.

(** [pick] selects index [k] exactly on the draws of
    [[k / n, (k + 1) / n)]: [n] intervals of equal length [1 / n]. *)
Lemma pick_spec (photos : list nat) (u : R) :
  0 <= u < 1 -> photos <> [] ->
  exists k id,
    (k < length photos)%nat /\ nth_error photos k = Some id /\
    pick photos u = Some id /\
    INR k / INR (length photos) <= u < (INR k + 1) / INR (length photos).
Proof.
  intros Hu Hne.
  assert (Hn : (0 < length photos)%nat)
    by (destruct photos; [contradiction | cbn; lia]).
  assert (HnR : 0 < INR (length photos)) by (apply lt_0_INR, Hn).
  set (n := length photos) in *.
  set (x := u * INR n).
  assert (Hx : 0 <= x < INR n) by (unfold x; split; nra).
  destruct (base_Int_part x) as [Hlo Hhi].
  set (z := Int_part x) in *.
  assert (Hz0 : (0 <= z)%Z).
  { assert (IZR (-1) < IZR z) by lra. apply lt_IZR in H. lia. }
  assert (HzR : IZR z = INR (Z.to_nat z))
    by (rewrite INR_IZR_INZ, Z2Nat.id by exact Hz0; reflexivity).
  assert (Hzn : (Z.to_nat z < n)%nat).
  { apply INR_lt. rewrite <- HzR. lra. }
  destruct (nth_error photos (Z.to_nat z)) as [id |] eqn:E.
  2:{ apply nth_error_None in E. fold n in E. lia. }
  exists (Z.to_nat z), id.
  split; [exact Hzn |]. split; [exact E |]. split.
  - unfold pick, Math_floor. fold n. fold x. fold z.
    destruct (z <? 0)%Z eqn:Ez; [apply Z.ltb_lt in Ez; lia | exact E].
  - rewrite <- HzR. unfold Rdiv. split.
    + apply (Rmult_le_reg_r (INR n)); [exact HnR |].
      rewrite Rmult_assoc, Rinv_l by lra. fold x. lra.
    + apply (Rmult_lt_reg_r (INR n)); [exact HnR |].
      rewrite Rmult_assoc, Rinv_l by lra. fold x. lra.
Qed.

Lemma after_hand_frame (t : R) (lm : list Landmark) (w : World) :
  particles (after_hand t lm w) = particles w /\
  mainGroup_rotation (after_hand t lm w) = mainGroup_rotation w /\
  dustSystem_rotation (after_hand t lm w) = dustSystem_rotation w /\
  lastVideoTime (after_hand t lm w) = t /\
  isLoaded (state (after_hand t lm w)) = isLoaded (state w).
Proof.
  unfold after_hand, gesture_logic.
  cbn [particles state random set_lastVideoTime].
  destruct (Rlt_dec (hand_pinchDist lm) 0.05);
    [destruct (targetPhoto (state w));
     [| destruct (0 <? length (photos_of (particles w)))%nat]
    | destruct (Rlt_dec (hand_avgTipDist lm) 0.25);
      [| destruct (Rgt_dec (hand_avgTipDist lm) 0.4)]];
    repeat split.
Qed.

Lemma after_hand_pinch_keep (t : R) (lm : list Landmark) (w : World)
    (tp : nat) :
  targetPhoto (state w) = Some tp -> hand_pinchDist lm < 0.05 ->
  mode (state (after_hand t lm w)) = FOCUS /\
  targetPhoto (state (after_hand t lm w)) = Some tp /\
  random (after_hand t lm w) = random w.
Proof.
  intros Htp Hp. unfold after_hand, gesture_logic.
  cbn [particles state random set_lastVideoTime].
  destruct (Rlt_dec (hand_pinchDist lm) 0.05); [| contradiction].
  rewrite Htp. cbn. repeat split.
Qed.

Lemma photos_from_app (k : nat) (ps qs : list Particle) :
  map fst (filter (fun ip => PType_eqb (type (snd ip)) PHOTO)
                  (combine (seq k (length (ps ++ qs))) (ps ++ qs))) =
  map fst (filter (fun ip => PType_eqb (type (snd ip)) PHOTO)
                  (combine (seq k (length ps)) ps)) ++
  map fst (filter (fun ip => PType_eqb (type (snd ip)) PHOTO)
                  (combine (seq (k + length ps) (length qs)) qs)).
Proof.
  revert k. induction ps as [| p rest IH]; intros k.
  - cbn [app length seq combine filter map]. rewrite Nat.add_0_r.
    reflexivity.
  - cbn [app length seq combine filter snd].
    replace (k + S (length rest))%nat with (S k + length rest)%nat by lia.
    destruct (PType_eqb (type p) PHOTO); cbn [map fst app];
      rewrite IH; reflexivity.
Qed.

Lemma photos_of_snoc (ps : list Particle) (p : Particle) :
  photos_of (ps ++ [p]) =
  photos_of ps ++ (if PType_eqb (type p) PHOTO then [length ps] else []).
Proof.
  unfold photos_of. rewrite photos_from_app. f_equal.
  cbn [length seq combine filter snd Nat.add].
  destruct (PType_eqb (type p) PHOTO); reflexivity.
Qed.

Lemma photo_count_snoc (ps : list Particle) (q : Particle) :
  photo_count (ps ++ [q]) =
  (photo_count ps + (if PType_eqb (type q) PHOTO then 1 else 0))%nat.
Proof.
  unfold photo_count. rewrite filter_app, length_app. cbn [filter].
  destruct (PType_eqb (type q) PHOTO); reflexivity.
Qed.

(** The code's filter finds every PHOTO particle. *)
Lemma photos_of_length (ps : list Particle) :
  length (photos_of ps) = photo_count ps.
Proof.
  induction ps as [| q ps IH] using rev_ind; [reflexivity |].
  rewrite photos_of_snoc, length_app, photo_count_snoc, IH.
  destruct (PType_eqb (type q) PHOTO); reflexivity.
Qed.

Lemma photo_rank_snoc (ps : list Particle) (q : Particle) (i : nat) :
  (i <= length ps)%nat -> photo_rank (ps ++ [q]) i = photo_rank ps i.
Proof.
  intros Hi. unfold photo_rank. rewrite firstn_app.
  replace (i - length ps)%nat with 0%nat by lia.
  rewrite firstn_O, app_nil_r. reflexivity.
Qed.

Lemma photo_rank_all (ps : list Particle) :
  photo_rank ps (length ps) = photo_count ps.
Proof. unfold photo_rank. rewrite firstn_all. reflexivity. Qed.

(** The candidate list of the code, [photos], holds at position [k]
    exactly the PHOTO particle that has [k] PHOTO particles before it. *)
Lemma photos_of_nth (ps : list Particle) (k id : nat) :
  nth_error (photos_of ps) k = Some id <->
  (exists p, nth_error ps id = Some p /\ type p = PHOTO) /\
  photo_rank ps id = k.
Proof.
  revert k id. induction ps as [| q ps IH] using rev_ind; intros k id.
  - split.
    + intros H. destruct k; discriminate.
    + intros [(p & Hn & _) _]. destruct id; discriminate.
  - rewrite photos_of_snoc. split.
    + intros H.
      destruct (Nat.lt_ge_cases k (length (photos_of ps))) as [Hk | Hk].
      * rewrite nth_error_app1 in H by exact Hk.
        apply IH in H. destruct H as [(p & Hn & Hty) Hr].
        assert (Hid : (id < length ps)%nat)
          by (apply nth_error_Some; congruence).
        split.
        -- exists p. rewrite nth_error_app1 by exact Hid. now split.
        -- rewrite photo_rank_snoc by lia. exact Hr.
      * rewrite nth_error_app2 in H by exact Hk.
        destruct (PType_eqb (type q) PHOTO) eqn:Eq.
        -- destruct (k - length (photos_of ps))%nat as [| m] eqn:Ek;
             [| destruct m; discriminate].
           cbn in H. injection H as <-.
           split.
           ++ exists q. rewrite nth_error_app2, Nat.sub_diag by lia.
              split; [reflexivity | apply PType_eqb_eq, Eq].
           ++ rewrite photo_rank_snoc, photo_rank_all by lia.
              rewrite photos_of_length in Hk, Ek. lia.
        -- destruct (k - length (photos_of ps))%nat; discriminate.
    + intros [(p & Hn & Hty) Hr].
      assert (Hid : (id < length (ps ++ [q]))%nat)
        by (apply nth_error_Some; congruence).
      rewrite length_app in Hid. cbn [length] in Hid.
      destruct (Nat.eq_dec id (length ps)) as [E | NE].
      * subst id. rewrite nth_error_app2, Nat.sub_diag in Hn by lia.
        cbn in Hn. injection Hn as <-.
        apply PType_eqb_eq in Hty. rewrite Hty.
        rewrite photo_rank_snoc, photo_rank_all in Hr by lia.
        rewrite nth_error_app2 by (rewrite photos_of_length; lia).
        rewrite photos_of_length, Hr, Nat.sub_diag. reflexivity.
      * rewrite nth_error_app1 in Hn by lia.
        rewrite photo_rank_snoc in Hr by lia.
        assert (H : nth_error (photos_of ps) k = Some id)
          by (apply IH; split; [exists p; now split | exact Hr]).
        rewrite nth_error_app1 by (apply nth_error_Some; congruence).
        exact H.
Qed.

(** A draw lies in at most one of the intervals
    [[k / n, (k + 1) / n)]. *)
Lemma interval_unique (a b n : nat) (u : R) :
  0 < INR n ->
  INR a / INR n <= u < (INR a + 1) / INR n ->
  INR b / INR n <= u < (INR b + 1) / INR n ->
  a = b.
Proof.
  intros Hn [Ha1 Ha2] [Hb1 Hb2].
  assert (E : forall x, x / INR n * INR n = x) by (intros x; field; lra).
  apply (Rmult_le_compat_r (INR n)) in Ha1; [| lra].
  apply (Rmult_lt_compat_r (INR n)) in Ha2; [| lra].
  apply (Rmult_le_compat_r (INR n)) in Hb1; [| lra].
  apply (Rmult_lt_compat_r (INR n)) in Hb2; [| lra].
  rewrite E in Ha1, Ha2, Hb1, Hb2.
  assert (H1 : INR a < INR (S b)) by (rewrite S_INR; lra).
  assert (H2 : INR b < INR (S a)) by (rewrite S_INR; lra).
  apply INR_lt in H1. apply INR_lt in H2. lia.
Qed.

Lemma after_hand_pinch_none (t : R) (lm : list Landmark) (w : World) :
  hand_pinchDist lm < 0.05 -> targetPhoto (state w) = None ->
  mode (state (after_hand t lm w)) = FOCUS /\
  (photos_of (particles w) = [] ->
   targetPhoto (state (after_hand t lm w)) = None /\
   random (after_hand t lm w) = random w) /\
  (photos_of (particles w) <> [] ->
   targetPhoto (state (after_hand t lm w)) =
   pick (photos_of (particles w)) (draw (random w) 0)).
Proof.
  intros Hp Htp. unfold after_hand, gesture_logic.
  cbn [particles state random set_lastVideoTime].
  destruct (Rlt_dec (hand_pinchDist lm) 0.05); [| contradiction].
  rewrite Htp.
  destruct (photos_of (particles w)) as [| id0 more].
  - cbn. destruct w; cbn. repeat split; intros; congruence.
  - cbn [length Nat.ltb Nat.leb bind Math_random ret].
    cbn [set_random set_state set_handRotation state mode targetPhoto].
    split; [reflexivity |]. split; [intros; discriminate |].
    intros _. reflexivity.
Qed.

(** C5.  A PINCH reading always leaves the mode FOCUS.  With no focus
    target set: if the scene holds at least one PHOTO particle, the
    target becomes a PHOTO particle of the scene, and a given PHOTO
    particle is the one chosen exactly when the uniform draw lies in
    [[k / n, (k + 1) / n)], where [n] is the number of PHOTO particles
    and [k] the number of PHOTO particles before it - one interval of
    length [1 / n] for every photo, so the choice is uniform over the
    PHOTO particles; if the scene holds no PHOTO particle the target
    stays unset, no draw is taken and the tick completes.  With a focus
    target already set it is kept and no draw is taken. *)
Theorem pinch_focus_target (t : R) (lm : list Landmark)
    (rest : list (list Landmark)) (w : World) :
  t <> lastVideoTime w -> (21 <= length lm)%nat ->
  valid_rng (random w) ->
  hand_pinchDist lm < 0.05 ->
  exists w', predictWebcam true t (lm :: rest) w = Some w' /\
    mode (state w') = FOCUS /\
    let ps := particles w in
    let is_photo := fun i =>
      exists p, nth_error ps i = Some p /\ type p = PHOTO in
    let n := photo_count ps in
    match targetPhoto (state w) with
    | Some tp =>
        targetPhoto (state w') = Some tp /\ random w' = random w
    | None =>
        ((forall i, ~ is_photo i) ->
         targetPhoto (state w') = None /\ random w' = random w) /\
        ((exists i, is_photo i) ->
         exists id, targetPhoto (state w') = Some id /\ is_photo id) /\
        (forall id, is_photo id ->
           (targetPhoto (state w') = Some id <->
            INR (photo_rank ps id) / INR n <= draw (random w) 0
              < (INR (photo_rank ps id) + 1) / INR n))
    end.
Proof.
  intros Ht Hlen Hg Hp. exists (after_hand t lm w).
  split; [apply predictWebcam_hand; assumption |].
  cbv zeta.
  destruct (targetPhoto (state w)) as [tp |] eqn:Etp.
  - destruct (after_hand_pinch_keep t lm w tp Etp Hp) as (Hm & Htp & Hr).
    repeat split; assumption.
  - destruct (after_hand_pinch_none t lm w Hp Etp) as (Hm & Hnone & Hsome).
    split; [exact Hm |].
    assert (Hfound : forall id,
               (exists p, nth_error (particles w) id = Some p /\
                          type p = PHOTO) ->
               photos_of (particles w) <> []).
    { intros id Hid E.
      assert (H : nth_error (photos_of (particles w))
                            (photo_rank (particles w) id) = Some id)
        by (apply photos_of_nth; split; [exact Hid | reflexivity]).
      rewrite E in H. destruct (photo_rank (particles w) id); discriminate. }
    split; [| split].
    + intros Hno. apply Hnone.
      destruct (photos_of (particles w)) as [| id0 more] eqn:E;
        [reflexivity |].
      exfalso. apply (Hno id0). apply photos_of_spec. rewrite E. now left.
    + intros [i Hi]. pose proof (Hfound i Hi) as Hne.
      rewrite (Hsome Hne).
      destruct (pick_spec _ _ (valid_rng_draw _ 0 Hg) Hne)
        as (k & id & _ & Hnth & Hpick & _).
      exists id. split; [exact Hpick |].
      apply photos_of_spec. eapply nth_error_In. exact Hnth.
    + intros id Hid. pose proof (Hfound id Hid) as Hne.
      rewrite (Hsome Hne).
      destruct (pick_spec _ _ (valid_rng_draw _ 0 Hg) Hne)
        as (k & id0 & Hk & Hnth & Hpick & Hint).
      rewrite photos_of_length in Hk, Hint.
      assert (Hn : 0 < INR (photo_count (particles w)))
        by (apply lt_0_INR; lia).
      rewrite Hpick. split.
      * intros [= ->].
        apply photos_of_nth in Hnth. destruct Hnth as [_ Hr].
        rewrite Hr. exact Hint.
      * intros Hint'.
        pose proof (interval_unique _ _ _ _ Hn Hint' Hint) as E.
        assert (H : nth_error (photos_of (particles w)) k = Some id)
          by (apply photos_of_nth; split; [exact Hid | exact E]).
        congruence.
Qed.

(** ** Content registration *)

Lemma addMesh_eq (m : Object3D) (t : PType) (w : World) :
  addMesh m t w =
  (length (particles w),
   set_random (advance (5 + draws_of t) (random w))
     (set_particles
        (particles w ++ [fst (Particle_new m t (random w))]) w)).
Proof.
  unfold addMesh. rewrite Particle_new_eq. reflexivity.
Qed.

Lemma call_at_last (f : Particle -> Rand Particle) (w : World)
    (ps : list Particle) (p : Particle) :
  particles w = ps ++ [p] ->
  call_at (length ps) f w =
  set_random (snd (f p (random w)))
    (set_particles (ps ++ [fst (f p (random w))]) w).
Proof.
  intros E. unfold call_at. rewrite E.
  rewrite nth_error_app2, Nat.sub_diag by lia. cbn [nth_error].
  rewrite firstn_app, Nat.sub_diag, firstn_all, firstn_O, app_nil_r.
  rewrite skipn_all2 by (rewrite length_app; cbn; lia).
  destruct (f p (random w)). reflexivity.
Qed.

(** What [addPhotoToScene] does: the constructor runs on draws 0..10
    (its layout on draws 3..8), and the second [calculatePositions]
    replaces the three targets by values from draws 11..16. *)
Lemma addPhotoToScene_eq (w : World) :
  let g := random w in
  let p1 := fst (Particle_new Object3D_new PHOTO g) in
  let g11 := advance 11 g in
  addPhotoToScene w =
  mkWorld (state w)
          (particles w ++
           [set_targets (scatter_of g11) (treePos_of g11)
                        (treeRot_of PHOTO g11) p1])
          (mainGroup_rotation w) (dustSystem_rotation w)
          (lastVideoTime w) (advance 17 g).
Proof.
  intros g p1 g11. unfold addPhotoToScene. rewrite addMesh_eq.
  erewrite call_at_last by reflexivity.
  cbn [random set_random set_particles].
  rewrite calculatePositions_eq.
  fold g. fold p1.
  assert (Ety : type p1 = PHOTO)
    by (unfold p1; rewrite Particle_new_eq; reflexivity).
  rewrite Ety. reflexivity.
Qed.

Lemma upload_onload_eq (w : World) :
  upload_onload w =
  set_state (mkSTATE TREE (targetPhoto (state w)) (handRotation (state w))
                     (isLoaded (state w)))
            (addPhotoToScene w).
Proof.
  unfold upload_onload. rewrite addPhotoToScene_eq. reflexivity.
Qed.

(** FIST and OPEN readings clear the focus target. *)
Lemma fist_open_clear_target (pinch avgTip : R) (ps : list Particle)
    (st : STATE) (g : Rng) :
  ~ pinch < 0.05 -> avgTip < 0.25 \/ avgTip > 0.4 ->
  let st' := fst (gesture_logic pinch avgTip ps st g) in
  (mode st' = TREE \/ mode st' = SCATTER) /\ targetPhoto st' = None.
Proof.
  intros Hp Ha. unfold gesture_logic.
  destruct (Rlt_dec pinch 0.05); [contradiction |].
  destruct (Rlt_dec avgTip 0.25); [cbn; auto |].
  destruct (Rgt_dec avgTip 0.4); [cbn; auto |].
  destruct Ha; contradiction.
Qed.

(** The upload callback sets the mode to TREE and leaves the focus
    target as it was. *)
Lemma upload_onload_state (w : World) :
  mode (state (upload_onload w)) = TREE /\
  targetPhoto (state (upload_onload w)) = targetPhoto (state w).
Proof. rewrite upload_onload_eq. split; reflexivity. Qed.

Lemma Math_hypot_0_l (b : R) : 0 <= b -> Math_hypot 0 b = b.
Proof.
  intros Hb. unfold Math_hypot.
  replace (0 * 0 + b * b) with (b * b) by ring.
  apply sqrt_square, Hb.
Qed.

Lemma hand_pinch_pinchDist : hand_pinchDist hand_pinch = 0.03.
Proof.
  unfold hand_pinchDist, pinchDist, landmark, hand_pinch.
  cbn [repeat app nth lx ly].
  replace (0.5 - 0.5) with 0 by lra.
  replace (0.53 - 0.5) with 0.03 by lra.
  apply Math_hypot_0_l. lra.
Qed.

Lemma hand_pinch_length : length hand_pinch = 21%nat.
Proof. reflexivity. Qed.

Lemma world_photo_eq :
  let g := const_rng 0.5 in
  world_photo =
  mkWorld STATE_init
          [set_targets (scatter_of (advance 11 g)) (treePos_of (advance 11 g))
                       (treeRot_of PHOTO (advance 11 g))
                       (fst (Particle_new Object3D_new PHOTO g))]
          Euler_zero Euler_zero (-1) (advance 17 g).
Proof. unfold world_photo. rewrite addPhotoToScene_eq. reflexivity. Qed.

Lemma world_photo_photos : photos_of (particles world_photo) = [0%nat].
Proof.
  rewrite world_photo_eq. cbv zeta. cbn [particles].
  unfold photos_of. cbn [length seq combine filter snd].
  rewrite Particle_new_eq. reflexivity.
Qed.

Lemma pick_singleton (id : nat) (u : R) :
  0 <= u < 1 -> pick [id] u = Some id.
Proof.
  intros Hu.
  destruct (pick_spec [id] u Hu) as (k & i & Hk & Hnth & Hpick & _);
    [discriminate |].
  cbn in Hk. assert (k = 0%nat) by lia. subst k.
  cbn in Hnth. injection Hnth as <-. exact Hpick.
Qed.

(** The pinch on [world_photo] selects the only photo. *)
Lemma world_focus_state :
  mode (state world_focus) = FOCUS /\
  targetPhoto (state world_focus) = Some 0%nat.
Proof.
  destruct (after_hand_mode_target 1 hand_pinch world_photo) as [Hm Ht].
  unfold world_focus. rewrite Hm, Ht. clear Hm Ht.
  unfold gesture_logic. rewrite hand_pinch_pinchDist.
  destruct (Rlt_dec 0.03 0.05) as [_ | H]; [| exfalso; lra].
  rewrite world_photo_photos.
  replace (targetPhoto (state world_photo)) with (@None nat)
    by (rewrite world_photo_eq; reflexivity).
  cbn [length Nat.ltb Nat.leb bind Math_random ret fst mode targetPhoto].
  split; [reflexivity |].
  apply pick_singleton.
  rewrite world_photo_eq. cbn. lra.
Qed.

(** C1 (what the code does).  From [world_focus], where the mode is
    FOCUS and the focus target is the photo at index 0, the upload
    callback leaves the mode TREE and the focus target still set to that
    photo, where the FIST and OPEN readings would have cleared it
    ([fist_open_clear_target]). *)
Theorem upload_keeps_stale_target :
  mode (state world_focus) = FOCUS /\
  targetPhoto (state world_focus) = Some 0%nat /\
  mode (state (upload_onload world_focus)) = TREE /\
  targetPhoto (state (upload_onload world_focus)) = Some 0%nat /\
  targetPhoto (state (upload_onload world_focus)) <> None.
Proof.
  destruct world_focus_state as [Hm Ht].
  destruct (upload_onload_state world_focus) as [Hm' Ht'].
  rewrite Ht', Hm', Hm, Ht. repeat split. discriminate.
Qed.

(** ** Life cycle of the layout targets *)

Section Lifecycle.

Variable slerp : Euler -> Euler -> R -> Euler.

Lemma animate_targets (delta : R) (w : World) (i : nat) (p : Particle) :
  nth_error (particles w) i = Some p ->
  option_map targets (nth_error (particles (animate slerp delta w)) i) =
  Some (targets p).
Proof.
  intros H. rewrite animate_nth, H. cbn [option_map].
  rewrite update_targets. reflexivity.
Qed.

Lemma upload_onload_old (w : World) (i : nat) (p : Particle) :
  nth_error (particles w) i = Some p ->
  nth_error (particles (upload_onload w)) i = Some p.
Proof.
  intros H. rewrite upload_onload_eq, addPhotoToScene_eq.
  cbn [particles set_state].
  rewrite nth_error_app1 by (apply nth_error_Some; congruence).
  exact H.
Qed.

(** C2 (as the code has it).  A particle's constructor runs the layout
    generator once, on the draws 3.. of the generator it is given.
    [addPhotoToScene] appends one PHOTO particle and runs the layout
    generator on it a second time, so that the registered photo's
    targets are the ones of the draws 11..16 and seventeen draws are
    taken in all.  Once a particle is in [particles], neither
    [animate], nor [predictWebcam], nor the upload of another photo
    changes its targets. *)
Theorem targets_lifecycle (w : World) :
  (forall m t g,
     targets (fst (Particle_new m t g)) =
       (treePos_of (advance 3 g), treeRot_of t (advance 3 g),
        scatter_of (advance 3 g)) /\
     snd (Particle_new m t g) = advance (5 + draws_of t) g) /\
  (let g := random w in
   let w' := addPhotoToScene w in
   exists p,
     particles w' = particles w ++ [p] /\ type p = PHOTO /\
     targets p =
       (treePos_of (advance 11 g), treeRot_of PHOTO (advance 11 g),
        scatter_of (advance 11 g)) /\
     random w' = advance 17 g) /\
  (forall i p,
     nth_error (particles w) i = Some p ->
     (forall delta,
        option_map targets
          (nth_error (particles (animate slerp delta w)) i) =
        Some (targets p)) /\
     (forall hl t lms w',
        predictWebcam hl t lms w = Some w' ->
        nth_error (particles w') i = Some p) /\
     nth_error (particles (upload_onload w)) i = Some p).
Proof.
  split; [| split].
  - intros m t g. rewrite Particle_new_eq. split; reflexivity.
  - cbv zeta. rewrite addPhotoToScene_eq. cbv zeta. cbn [particles random].
    eexists. split; [reflexivity |].
    rewrite Particle_new_eq. repeat split.
  - intros i p H. split; [| split].
    + intros delta. apply animate_targets, H.
    + intros hl t lms w' Hw.
      rewrite (predictWebcam_particles _ _ _ _ _ Hw). exact H.
    + apply upload_onload_old, H.
Qed.

End Lifecycle.

(** C2 (counterexample).  Registering a photo with [rng_step] as the
    generator: the targets the registered photo ends with are not the
    ones its constructor computed. *)
Lemma photo_targets_recomputed :
  exists p,
    nth_error (particles (addPhotoToScene (world_start rng_step))) 0 =
      Some p /\
    vy (treePos (fst (Particle_new Object3D_new PHOTO rng_step))) = -15 /\
    vy (treePos p) = 0 /\
    targets p <> targets (fst (Particle_new Object3D_new PHOTO rng_step)).
Proof.
  rewrite addPhotoToScene_eq. cbv zeta.
  cbn [particles world_start random app nth_error].
  eexists. split; [reflexivity |].
  rewrite Particle_new_eq. cbv zeta.
  cbn [fst treePos set_targets targets].
  assert (H1 : vy (treePos_of (advance 3 rng_step)) = -15)
    by (unfold treePos_of; cbn; lra).
  assert (H2 : vy (treePos_of (advance 11 rng_step)) = 0)
    by (unfold treePos_of; cbn; lra).
  split; [exact H1 |]. split; [exact H2 |].
  intros E. apply (f_equal (fun t => vy (fst (fst t)))) in E.
  unfold targets in E. cbn [fst treePos set_targets] in E.
  rewrite H1, H2 in E. lra.
Qed.

Lemma ornament_075_eq :
  ez (rotation (mesh ornament_075)) = 0 /\
  vz (scatterVel ornament_075) = 0.005.
Proof.
  unfold ornament_075. rewrite Particle_new_eq. cbv zeta.
  cbn [fst mesh rotation ez scatterVel multiplyScalar vz].
  split; [reflexivity |]. unfold draw. cbn. lra.
Qed.

(** C3 (counterexample).  One pass of [animate] over [world_scatter],
    whose first particle [ornament_075] has [scatterVel.z = 0.005] and
    z angle 0: after the pass the z angle is still 0, not advanced by
    [scatterVel.z]. *)
Lemma no_z_spin_in_scatter :
  let p' := nth 0 (particles (animate Euler_lerp 0.016 world_scatter))
                ornament_075 in
  mode (state world_scatter) = SCATTER /\
  nth_error (particles world_scatter) 0 = Some ornament_075 /\
  vz (scatterVel ornament_075) = 0.005 /\
  ez (rotation (mesh ornament_075)) = 0 /\
  ez (rotation (mesh p')) = 0 /\
  ez (rotation (mesh p')) <>
    ez (rotation (mesh ornament_075)) + vz (scatterVel ornament_075).
Proof.
  cbv zeta. destruct ornament_075_eq as [Hz Hv].
  assert (E : nth 0 (particles (animate Euler_lerp 0.016 world_scatter))
                  ornament_075 =
              update Euler_lerp STATE_scatter 0 0.016 ornament_075)
    by reflexivity.
  rewrite E, (update_scatter Euler_lerp) by reflexivity.
  cbn [mesh set_mesh rotation ez]. rewrite Hz, Hv.
  repeat split; try reflexivity. lra.
Qed.

(** ** The statements at sample inputs *)

Lemma world_photo_lastVideoTime : 1 <> lastVideoTime world_photo.
Proof. rewrite world_photo_eq. cbn. lra. Qed.

Lemma world_photo_valid_rng : valid_rng (random world_photo).
Proof.
  rewrite world_photo_eq. cbn [random].
  apply valid_rng_advance, valid_const_rng. lra.
Qed.

Lemma hand_pinch_21 : (21 <= length hand_pinch)%nat.
Proof. rewrite hand_pinch_length. apply le_n. Qed.

Lemma hand_pinch_is_pinch : hand_pinchDist hand_pinch < 0.05.
Proof. rewrite hand_pinch_pinchDist. lra. Qed.

Lemma valid_rng_half : valid_rng (const_rng 0.5).
Proof. apply valid_const_rng. lra. Qed.

(** The theorems that carry hypotheses, applied at the sample inputs. *)

Lemma scatterPos_radius_range_witness :
  valid_rng (const_rng 0.5) /\
  8 <= Vector3_length
         (scatterPos (fst (calculatePositions candy_05 (const_rng 0.5))))
    <= 20.
Proof.
  split.
  - exact valid_rng_half.
  - exact (proj2 (scatterPos_radius_range candy_05 (const_rng 0.5)
                    valid_rng_half)).
Defined.

Lemma treePos_ranges_witness :
  valid_rng (const_rng 0.5) /\
  -15 <= vy (treePos (fst (calculatePositions candy_05 (const_rng 0.5))))
    <= 15.
Proof.
  split.
  - exact valid_rng_half.
  - exact (proj1 (proj2 (proj2 (treePos_ranges candy_05 (const_rng 0.5)
                                  valid_rng_half)))).
Defined.

Lemma scatter_tick_witness :
  mode (state world_scatter) = SCATTER /\
  nth_error (particles world_scatter) 1 = Some candy_05 /\
  exists p',
    nth_error (particles (animate Euler_lerp 0.016 world_scatter)) 1 =
      Some p' /\
    ez (rotation (mesh p')) = ez (rotation (mesh candy_05)).
Proof.
  split; [reflexivity |]. split; [reflexivity |].
  destruct (scatter_tick Euler_lerp world_scatter 0.016 1 candy_05
              eq_refl eq_refl) as [p' [Hn [_ [_ [Hz _]]]]].
  exists p'. split; [exact Hn | exact Hz].
Defined.

Lemma scatter_keeps_scale_witness :
  mode (state world_scatter) = SCATTER /\
  nth_error (particles world_scatter) 0 = Some ornament_075 /\
  option_map (fun q => scale (mesh q))
    (nth_error (particles (animates Euler_lerp [0.016; 0.017]
                                    world_scatter)) 0) =
  Some (scale (mesh ornament_075)).
Proof.
  split; [reflexivity |]. split; [reflexivity |].
  exact (proj2 (scatter_keeps_scale Euler_lerp world_scatter 0
                  ornament_075 eq_refl eq_refl) [0.016; 0.017]).
Defined.

Lemma position_converges_witness :
  (mode (state world_tree) = TREE \/ mode (state world_tree) = FOCUS) /\
  nth_error (particles world_tree) 1 = Some candy_05 /\
  distanceTo
    (position (mesh (nth 1 (particles (animates Euler_lerp [0.016; 0.017]
                                                world_tree)) candy_05)))
    (targetPos_of (state world_tree) 1 candy_05) =
  0.95 ^ 2 *
  distanceTo (position (mesh candy_05))
             (targetPos_of (state world_tree) 1 candy_05).
Proof.
  split; [left; reflexivity |]. split; [reflexivity |].
  exact (proj1 (proj2 (position_converges Euler_lerp world_tree 1
                         candy_05 (or_introl eq_refl) eq_refl))
           [0.016; 0.017]).
Defined.

Lemma pointer_signal_witness :
  1 <> lastVideoTime world_photo /\ (21 <= length hand_pinch)%nat /\
  exists w', predictWebcam true 1 [hand_pinch] world_photo = Some w' /\
    hy (handRotation (state w')) = (lx (landmark hand_pinch 9) - 0.5) * 2 /\
    hx (handRotation (state w')) = (ly (landmark hand_pinch 9) - 0.5) * 1.
Proof.
  split; [exact world_photo_lastVideoTime |].
  split; [exact hand_pinch_21 |].
  exact (pointer_signal 1 hand_pinch [] world_photo
           world_photo_lastVideoTime hand_pinch_21).
Defined.

Lemma classifier_priority_witness :
  1 <> lastVideoTime world_photo /\ (21 <= length hand_pinch)%nat /\
  hand_pinchDist hand_pinch < 0.05 /\
  exists w', predictWebcam true 1 [hand_pinch] world_photo = Some w' /\
    mode (state w') = FOCUS.
Proof.
  split; [exact world_photo_lastVideoTime |].
  split; [exact hand_pinch_21 |].
  split; [exact hand_pinch_is_pinch |].
  destruct (classifier_priority 1 hand_pinch [] world_photo
              world_photo_lastVideoTime hand_pinch_21)
    as [w' [Hw [Hfocus _]]].
  exists w'. split; [exact Hw | exact (Hfocus hand_pinch_is_pinch)].
Defined.

Lemma world_photo_has_photo :
  exists i p, nth_error (particles world_photo) i = Some p /\ type p = PHOTO.
Proof.
  exists 0%nat. rewrite world_photo_eq. cbv zeta.
  cbn [particles nth_error]. eexists. split; [reflexivity |].
  rewrite Particle_new_eq. reflexivity.
Qed.

Lemma world_photo_no_target : targetPhoto (state world_photo) = None.
Proof. rewrite world_photo_eq. reflexivity. Qed.

Lemma pinch_focus_target_witness :
  1 <> lastVideoTime world_photo /\ (21 <= length hand_pinch)%nat /\
  valid_rng (random world_photo) /\ hand_pinchDist hand_pinch < 0.05 /\
  exists w' id,
    predictWebcam true 1 [hand_pinch] world_photo = Some w' /\
    mode (state w') = FOCUS /\ targetPhoto (state w') = Some id.
Proof.
  split; [exact world_photo_lastVideoTime |].
  split; [exact hand_pinch_21 |].
  split; [exact world_photo_valid_rng |].
  split; [exact hand_pinch_is_pinch |].
  destruct (pinch_focus_target 1 hand_pinch [] world_photo
              world_photo_lastVideoTime hand_pinch_21
              world_photo_valid_rng hand_pinch_is_pinch)
    as [w' [Hw [Hfocus Htarget]]].
  cbv zeta in Htarget. rewrite world_photo_no_target in Htarget.
  destruct Htarget as [_ [Hsome _]].
  destruct (Hsome world_photo_has_photo) as [id [Hid _]].
  exists w', id. split; [exact Hw |]. split; [exact Hfocus | exact Hid].
Defined.

Lemma world_photo_first :
  exists p, nth_error (particles world_photo) 0 = Some p.
Proof. rewrite world_photo_eq. cbn [particles nth_error]. eexists. reflexivity. Qed.

Lemma targets_lifecycle_witness :
  nth_error (particles (upload_onload world_photo)) 0 =
  nth_error (particles world_photo) 0.
Proof.
  destruct world_photo_first as [p Hp]. rewrite Hp.
  exact (proj2 (proj2 (proj2 (proj2 (targets_lifecycle Euler_lerp
                                       world_photo)) 0%nat p Hp))).
Defined.

(** * Further properties of the code *)

(** ** Constructor and placement *)

Lemma Vector3_length_multiplyScalar (v : Vector3) (s : R) :
  0 <= s -> Vector3_length (multiplyScalar v s) = s * Vector3_length v.
Proof.
  intros Hs. unfold Vector3_length, multiplyScalar. cbn [vx vy vz].
  replace (vx v * s * (vx v * s) + vy v * s * (vy v * s) +
           vz v * s * (vz v * s))
    with (s * s * (vx v * vx v + vy v * vy v + vz v * vz v)) by ring.
  rewrite sqrt_mult by (try apply sum_squares_nonneg; nra).
  rewrite sqrt_square by exact Hs. reflexivity.
Qed.

(** What the constructor leaves behind: the particle keeps the given
    type, its base scale and current scale are the mesh's scale, it
    stands at its own scatter position, every component of its spin
    [scatterVel] lies in [-0.01, 0.01), its x and y angles lie in
    [0, PI) and its z angle is 0; eleven draws are taken, twelve for a
    CANDY. *)
Theorem Particle_new_bounds (m : Object3D) (t : PType) (g : Rng) :
  valid_rng g ->
  let p := fst (Particle_new m t g) in
  type p = t /\ baseScale p = scale m /\ scale (mesh p) = scale m /\
  position (mesh p) = scatterPos p /\
  (-0.01 <= vx (scatterVel p) < 0.01 /\
   -0.01 <= vy (scatterVel p) < 0.01 /\
   -0.01 <= vz (scatterVel p) < 0.01) /\
  (0 <= ex (rotation (mesh p)) < PI /\
   0 <= ey (rotation (mesh p)) < PI /\
   ez (rotation (mesh p)) = 0) /\
  snd (Particle_new m t g) =
    advance (match t with CANDY => 12 | _ => 11 end) g.
Proof.
  intros Hg p. subst p. rewrite Particle_new_eq. cbv zeta.
  cbn [fst snd type baseScale mesh scale position scatterPos scatterVel
       rotation ex ey ez multiplyScalar vx vy vz].
  pose proof (valid_rng_draw g 0 Hg) as H0.
  pose proof (valid_rng_draw g 1 Hg) as H1.
  pose proof (valid_rng_draw g 2 Hg) as H2.
  pose proof (valid_rng_draw g (3 + draws_of t) Hg) as H3.
  pose proof (valid_rng_draw g (4 + draws_of t) Hg) as H4.
  pose proof PI_RGT_0 as Hpi.
  repeat split; try lra; try nra.
  destruct t; reflexivity.
Qed.

(** Every tree position lies, up to the jitter of at most 0.5 per
    horizontal axis, on the cone whose radius at height [y] is
    [6.5 - 0.4 * y], and therefore inside the box
    [-13, 13] x [-15, 15] x [-13, 13]. *)
Theorem treePos_cone_box (this : Particle) (g : Rng) :
  valid_rng g ->
  let tp := treePos (fst (calculatePositions this g)) in
  (exists cx cz,
     Math_hypot cx cz = 6.5 - 0.4 * vy tp /\
     -0.5 <= vx tp - cx < 0.5 /\ -0.5 <= vz tp - cz < 0.5) /\
  -13 <= vx tp <= 13 /\ -15 <= vy tp <= 15 /\ -13 <= vz tp <= 13.
Proof.
  intros Hg tp. subst tp. rewrite calculatePositions_eq.
  cbn [fst set_targets treePos]. unfold treePos_of. cbn [vx vy vz].
  pose proof (valid_rng_draw g 3 Hg) as Hh.
  pose proof (valid_rng_draw g 4 Hg) as H4.
  pose proof (valid_rng_draw g 5 Hg) as H5.
  set (h := draw g 3) in *.
  assert (Hr : 0.5 <= tree_radius h <= 12.5) by (unfold tree_radius; lra).
  pose proof (COS_bound (h * 50)) as Hc.
  pose proof (SIN_bound (h * 50)) as Hs.
  split; [| split; [| split]].
  - exists (cos (h * 50) * tree_radius h), (sin (h * 50) * tree_radius h).
    split; [| split; lra].
    rewrite polar_length by lra. unfold tree_radius. lra.
  - split; nra.
  - lra.
  - split; nra.
Qed.

(** The scatter position in cylinder coordinates: with [r = 8 + w * 12]
    the radius draw and [c = 2 * v - 1] the draw for the polar angle,
    the z coordinate is [r * c] and the distance from the z axis is
    [r * sqrt (1 - c * c)]. *)
Theorem scatterPos_polar (this : Particle) (g : Rng) :
  valid_rng g ->
  let sp := scatterPos (fst (calculatePositions this g)) in
  let r := 8 + draw g 2 * 12 in
  let c := 2 * draw g 1 - 1 in
  vz sp = r * c /\
  Math_hypot (vx sp) (vy sp) = r * sqrt (1 - c * c) /\
  - r <= vz sp < r.
Proof.
  intros Hg sp r c. subst sp. rewrite calculatePositions_eq.
  cbn [fst set_targets scatterPos]. unfold scatter_of. cbn [vx vy vz].
  pose proof (valid_rng_draw g 1 Hg) as Hv.
  pose proof (valid_rng_draw g 2 Hg) as Hw.
  fold r. fold c.
  assert (Hc : -1 <= c <= 1) by (unfold c; lra).
  assert (Hr : 8 <= r) by (unfold r; lra).
  rewrite (cos_acos c Hc).
  assert (Hsin : sin (acos c) = sqrt (1 - c * c))
    by (rewrite (sin_acos c Hc); reflexivity).
  split; [reflexivity |]. split.
  - set (th := 2 * PI * draw g 0).
    replace (r * sin (acos c) * cos th) with (cos th * (r * sin (acos c)))
      by ring.
    replace (r * sin (acos c) * sin th) with (sin th * (r * sin (acos c)))
      by ring.
    rewrite polar_length; [rewrite Hsin; reflexivity |].
    rewrite Hsin. pose proof (sqrt_pos (1 - c * c)). nra.
  - assert (c < 1) by (unfold c; lra). split; nra.
Qed.

Lemma Vector3_eq_dec_R (a b : Vector3) : {a = b} + {a <> b}.
Proof.
  destruct a as [ax ay az], b as [bx b_y bz].
  destruct (Req_dec_T ax bx) as [Hx | Hx];
    [| right; intros E; injection E; intros; contradiction].
  destruct (Req_dec_T ay b_y) as [Hy | Hy];
    [| right; intros E; injection E; intros; contradiction].
  destruct (Req_dec_T az bz) as [Hz | Hz];
    [| right; intros E; injection E; intros; contradiction].
  left. subst. reflexivity.
Qed.

Section MoreIntegrator.

Variable slerp : Euler -> Euler -> R -> Euler.

Lemma updates_offset (st : STATE) (self : nat) (deltas : list R)
    (this : Particle) :
  let T := targetPos_of st self this in
  let q := position (mesh (updates slerp st self deltas this)) in
  let c := 0.95 ^ length deltas in
  vx q - vx T = c * (vx (position (mesh this)) - vx T) /\
  vy q - vy T = c * (vy (position (mesh this)) - vy T) /\
  vz q - vz T = c * (vz (position (mesh this)) - vz T).
Proof.
  revert this. induction deltas as [| d rest IH]; intros this; cbv zeta.
  - cbn [updates length pow]. repeat split; lra.
  - cbn [updates length pow].
    destruct (IH (update slerp st self d this)) as (Hx & Hy & Hz).
    rewrite targetPos_of_update in Hx, Hy, Hz.
    rewrite update_position in Hx, Hy, Hz.
    cbn [Vector3_lerp vx vy vz] in Hx, Hy, Hz.
    repeat split; lra.
Qed.

Lemma pow_095_range (n : nat) : 0 <= 0.95 ^ n <= 1.
Proof.
  split; [apply pow_le; lra |].
  rewrite <- (pow1 n). apply pow_incr. lra.
Qed.

(** Mode FOCUS, a particle that is not the focus target, over any
    number of passes of [animate]: the particle's position approaches
    1.5 times its scatter position, the distance to that point being
    multiplied by 0.95 per pass; for a scatter position as
    [calculatePositions] generates it, that point lies at distance
    between 12 and 30 from the origin.  A particle that starts at its
    scatter position moves straight outwards along the ray through it:
    after [n] passes it stands at [1.5 - 0.5 * 0.95 ^ n] times the
    scatter position, at a distance between 8 and 30 from the origin. *)
Theorem focus_pushback (w : World) (i : nat) (p : Particle)
    (deltas : list R) (this : Particle) (g : Rng) :
  mode (state w) = FOCUS -> targetPhoto (state w) <> Some i ->
  nth_error (particles w) i = Some p ->
  valid_rng g ->
  scatterPos p = scatterPos (fst (calculatePositions this g)) ->
  let q := nth i (particles (animates slerp deltas w)) p in
  let T := multiplyScalar (scatterPos p) 1.5 in
  let c := 0.95 ^ length deltas in
  distanceTo (position (mesh q)) T =
    c * distanceTo (position (mesh p)) T /\
  12 <= Vector3_length T <= 30 /\
  (position (mesh p) = scatterPos p ->
   position (mesh q) = multiplyScalar (scatterPos p) (1.5 - 0.5 * c) /\
   8 <= Vector3_length (position (mesh q)) <= 30).
Proof.
  intros Hm Hnt Hp Hg Hsp q T c. subst q T c.
  rewrite (animates_particle slerp deltas w i p Hp).
  assert (Hnot : is_targetPhoto (state w) i = false).
  { unfold is_targetPhoto. destruct (targetPhoto (state w)) as [tp |];
      [| reflexivity].
    destruct (Nat.eqb i tp) eqn:E; [| reflexivity].
    apply Nat.eqb_eq in E. subst tp. contradiction Hnt. reflexivity. }
  assert (HT : targetPos_of (state w) i p =
               multiplyScalar (scatterPos p) 1.5)
    by (unfold targetPos_of; rewrite Hm, Hnot; reflexivity).
  assert (Hrange : 8 <= Vector3_length (scatterPos p) <= 20).
  { rewrite Hsp, calculatePositions_eq.
    cbn [fst set_targets scatterPos]. unfold scatter_of.
    pose proof (valid_rng_draw g 2 Hg).
    rewrite spherical_length by lra. lra. }
  pose proof (pow_095_range (length deltas)) as Hc.
  split; [| split].
  - rewrite <- HT. apply updates_distance.
  - rewrite Vector3_length_multiplyScalar by lra. lra.
  - intros Hpos.
    destruct (updates_offset (state w) i deltas p) as (Hx & Hy & Hz).
    rewrite HT, Hpos in Hx, Hy, Hz.
    cbn [multiplyScalar vx vy vz] in Hx, Hy, Hz.
    assert (E : position (mesh (updates slerp (state w) i deltas p)) =
                multiplyScalar (scatterPos p)
                               (1.5 - 0.5 * 0.95 ^ length deltas)).
    { destruct (position (mesh (updates slerp (state w) i deltas p)))
        as [qx qy qz].
      cbn [vx vy vz] in Hx, Hy, Hz. unfold multiplyScalar.
      f_equal; lra. }
    split; [exact E |].
    rewrite E, Vector3_length_multiplyScalar by lra.
    split; nra.
Qed.

Lemma updates_scatter_mesh (st : STATE) (self : nat) (deltas : list R)
    (this : Particle) :
  mode st = SCATTER ->
  let p := updates slerp st self deltas this in
  ex (rotation (mesh p)) =
    ex (rotation (mesh this)) + INR (length deltas) * vx (scatterVel this) /\
  ey (rotation (mesh p)) =
    ey (rotation (mesh this)) + INR (length deltas) * vy (scatterVel this) /\
  ez (rotation (mesh p)) = ez (rotation (mesh this)).
Proof.
  intros Hm. revert this.
  induction deltas as [| d rest IH]; intros this; cbn [updates length].
  - cbn [INR]. repeat split; lra.
  - destruct (IH (update slerp st self d this)) as (Hx & Hy & Hz).
    cbv zeta. rewrite Hx, Hy, Hz.
    rewrite update_scatter by exact Hm.
    cbn [mesh set_mesh rotation ex ey ez scatterVel].
    rewrite S_INR. repeat split; lra.
Qed.

(** Mode SCATTER over any number of passes of [animate]: the x and y
    angles of every particle grow linearly, by [scatterVel.x] and
    [scatterVel.y] per pass whatever the clock deltas are, the z angle
    never changes, and the distance to [scatterPos] is multiplied by
    0.95 per pass, so that a particle standing at its scatter position
    (as the constructor leaves it) does not move at all. *)
Theorem scatter_passes (w : World) (i : nat) (p : Particle)
    (deltas : list R) :
  mode (state w) = SCATTER ->
  nth_error (particles w) i = Some p ->
  let q := nth i (particles (animates slerp deltas w)) p in
  let n := INR (length deltas) in
  ex (rotation (mesh q)) = ex (rotation (mesh p)) + n * vx (scatterVel p) /\
  ey (rotation (mesh q)) = ey (rotation (mesh p)) + n * vy (scatterVel p) /\
  ez (rotation (mesh q)) = ez (rotation (mesh p)) /\
  distanceTo (position (mesh q)) (scatterPos p) =
    0.95 ^ length deltas * distanceTo (position (mesh p)) (scatterPos p) /\
  (position (mesh p) = scatterPos p -> position (mesh q) = scatterPos p).
Proof.
  intros Hm Hp q n. subst q n.
  rewrite (animates_particle slerp deltas w i p Hp).
  destruct (updates_scatter_mesh (state w) i deltas p Hm) as (Hx & Hy & Hz).
  assert (HT : targetPos_of (state w) i p = scatterPos p)
    by (unfold targetPos_of; rewrite Hm; reflexivity).
  pose proof (updates_distance slerp (state w) i deltas p) as Hd.
  rewrite HT in Hd.
  split; [exact Hx |]. split; [exact Hy |]. split; [exact Hz |].
  split; [exact Hd |].
  intros Hpos.
  destruct (Vector3_eq_dec_R
              (position (mesh (updates slerp (state w) i deltas p)))
              (scatterPos p)) as [E | NE]; [exact E |].
  exfalso. apply distanceTo_pos in NE. rewrite Hd, Hpos in NE.
  assert (Z : distanceTo (scatterPos p) (scatterPos p) = 0).
  { unfold distanceTo, Vector3_length. cbn [vx vy vz].
    replace ((vx (scatterPos p) - vx (scatterPos p)) *
             (vx (scatterPos p) - vx (scatterPos p)) +
             (vy (scatterPos p) - vy (scatterPos p)) *
             (vy (scatterPos p) - vy (scatterPos p)) +
             (vz (scatterPos p) - vz (scatterPos p)) *
             (vz (scatterPos p) - vz (scatterPos p))) with 0 by ring.
    apply sqrt_0. }
  rewrite Z in NE. lra.
Qed.

Lemma update_scale (st : STATE) (self : nat) (dt : R) (this : Particle) :
  mode st <> SCATTER ->
  scale (mesh (update slerp st self dt this)) =
  Vector3_lerp (scale (mesh this)) (targetScale_of st self this) 0.05.
Proof.
  intros Hm. unfold update, targetScale_of, lerp_logic.
  destruct (mode st); [| contradiction |
                       destruct (is_targetPhoto st self)]; reflexivity.
Qed.

Lemma targetScale_of_update (st : STATE) (self : nat) (dt : R)
    (this : Particle) :
  targetScale_of st self (update slerp st self dt this) =
  targetScale_of st self this.
Proof.
  destruct (update_frame slerp st self dt this) as (_ & H & _).
  unfold targetScale_of. rewrite H. reflexivity.
Qed.

Lemma updates_scale_distance (st : STATE) (self : nat) (deltas : list R)
    (this : Particle) :
  mode st <> SCATTER ->
  distanceTo (scale (mesh (updates slerp st self deltas this)))
             (targetScale_of st self this) =
  0.95 ^ length deltas *
  distanceTo (scale (mesh this)) (targetScale_of st self this).
Proof.
  intros Hm. revert this.
  induction deltas as [| d rest IH]; intros this; cbn [length updates].
  - cbn. lra.
  - rewrite <- (targetScale_of_update st self d this) at 1.
    rewrite IH, targetScale_of_update, update_scale by exact Hm.
    rewrite lerp_distance. cbn [pow]. lra.
Qed.

(** Modes TREE and FOCUS over any number of passes of [animate]: the
    scale of every particle approaches its target scale - 4.5 times the
    base scale for the focus target in mode FOCUS, the base scale
    otherwise - the distance between the two being multiplied by 0.95
    per pass; the base scale itself never changes. *)
Theorem scale_converges (w : World) (i : nat) (p : Particle)
    (deltas : list R) :
  mode (state w) = TREE \/ mode (state w) = FOCUS ->
  nth_error (particles w) i = Some p ->
  let q := nth i (particles (animates slerp deltas w)) p in
  let T := targetScale_of (state w) i p in
  T = (if Mode_eqb (mode (state w)) FOCUS && is_targetPhoto (state w) i
       then multiplyScalar (baseScale p) 4.5 else baseScale p) /\
  baseScale q = baseScale p /\
  distanceTo (scale (mesh q)) T =
    0.95 ^ length deltas * distanceTo (scale (mesh p)) T.
Proof.
  intros Hm Hp q T. subst q T.
  rewrite (animates_particle slerp deltas w i p Hp).
  assert (Hns : mode (state w) <> SCATTER)
    by (destruct Hm as [E | E]; rewrite E; discriminate).
  split; [| split].
  - unfold targetScale_of. destruct (mode (state w)); reflexivity.
  - clear Hp. revert p. induction deltas as [| d rest IH]; intros p;
      cbn [updates]; [reflexivity |].
    rewrite IH.
    destruct (update_frame slerp (state w) i d p) as (_ & H & _). exact H.
  - apply updates_scale_distance, Hns.
Qed.

End MoreIntegrator.

(** ** Bulk motion *)

Section Bulk.

Variable slerp : Euler -> Euler -> R -> Euler.

Lemma animate_mainGroup (delta : R) (w : World) :
  let g := mainGroup_rotation w in
  let h := handRotation (state w) in
  mainGroup_rotation (animate slerp delta w) =
  mkEuler (MathUtils_lerp (ex g) (hx h) 0.05)
          (if Mode_eqb (mode (state w)) TREE
           then MathUtils_lerp (ey g) (hy h) 0.05 + 0.1 * delta
           else MathUtils_lerp (ey g) (hy h) 0.05)
          (ez g).
Proof. reflexivity. Qed.

(** The group's rotation follows the pointer signal: over any number of
    passes of [animate] (during which [STATE] is not written) the x
    angle's offset from [handRotation.x] is multiplied by 0.95 per pass,
    in every mode; so is the y angle's offset from [handRotation.y] in
    the modes SCATTER and FOCUS; the z angle never changes. *)
Theorem mainGroup_follows_pointer (w : World) (deltas : list R) :
  let g := mainGroup_rotation w in
  let g' := mainGroup_rotation (animates slerp deltas w) in
  let h := handRotation (state w) in
  ex g' - hx h = 0.95 ^ length deltas * (ex g - hx h) /\
  ez g' = ez g /\
  (mode (state w) <> TREE ->
   ey g' - hy h = 0.95 ^ length deltas * (ey g - hy h)).
Proof.
  revert w. induction deltas as [| d rest IH]; intros w; cbv zeta.
  - cbn [animates length pow]. repeat split; intros; lra.
  - cbn [animates length pow].
    destruct (IH (animate slerp d w)) as (Hx & Hz & Hy).
    rewrite animate_state in Hx, Hy.
    rewrite animate_mainGroup in Hx, Hz, Hy. cbn [ex ey ez] in Hx, Hz, Hy.
    unfold MathUtils_lerp in Hx, Hy.
    split; [rewrite Hx; lra |]. split; [exact Hz |].
    intros Hm. specialize (Hy Hm).
    assert (E : Mode_eqb (mode (state w)) TREE = false)
      by (destruct (mode (state w)); [contradiction Hm | |]; reflexivity).
    rewrite E in Hy. rewrite Hy. lra.
Qed.

(** In mode TREE every pass adds [0.1 * delta] to the group's y angle
    after the smoothing step.  With a constant clock delta [d] the y
    angle does not keep turning: its offset from
    [handRotation.y + 2 * d] is multiplied by 0.95 per pass, so it
    settles two clock deltas ahead of the pointer signal. *)
Theorem tree_idle_spin_settles (w : World) (d : R) (n : nat) :
  mode (state w) = TREE ->
  let g := mainGroup_rotation w in
  let h := handRotation (state w) in
  (forall delta,
     ey (mainGroup_rotation (animate slerp delta w)) =
     0.95 * ey g + 0.05 * hy h + 0.1 * delta) /\
  ey (mainGroup_rotation (animates slerp (repeat d n) w)) - (hy h + 2 * d) =
  0.95 ^ n * (ey g - (hy h + 2 * d)).
Proof.
  intros Hm g h. subst g h. split.
  - intros delta. rewrite animate_mainGroup. cbn [ey]. rewrite Hm.
    cbn [Mode_eqb]. unfold MathUtils_lerp. lra.
  - revert w Hm. induction n as [| n IH]; intros w Hm;
      cbn [repeat animates pow]; [lra |].
    assert (Hm' : mode (state (animate slerp d w)) = TREE) by exact Hm.
    pose proof (IH (animate slerp d w) Hm') as H.
    rewrite animate_state, animate_mainGroup in H. cbn [ey] in H.
    rewrite Hm in H. cbn [Mode_eqb] in H. unfold MathUtils_lerp in H.
    lra.
Qed.

(** The dust cloud turns about y at the fixed rate 0.05 per unit of
    clock time in every mode: after the passes [deltas] its y angle has
    grown by 0.05 times their sum; its x and z angles never change. *)
Theorem dust_rotation (w : World) (deltas : list R) :
  let r := dustSystem_rotation w in
  let r' := dustSystem_rotation (animates slerp deltas w) in
  ey r' = ey r + 0.05 * sum_R deltas /\ ex r' = ex r /\ ez r' = ez r.
Proof.
  revert w. induction deltas as [| d rest IH]; intros w; cbv zeta.
  - cbn [animates sum_R fold_right]. repeat split; lra.
  - cbn [animates sum_R fold_right].
    destruct (IH (animate slerp d w)) as (Hy & Hx & Hz).
    rewrite Hy, Hx, Hz. unfold animate.
    cbn [dustSystem_rotation ex ey ez]. fold (sum_R rest).
    repeat split; lra.
Qed.

(** What [animate] never does: over any number of passes it writes
    neither [STATE] nor [lastVideoTime], takes no random draw, neither
    adds nor removes a particle, and leaves every particle's type, base
    scale, spin and layout targets as they were. *)
Theorem animates_frame (w : World) (deltas : list R) :
  let w' := animates slerp deltas w in
  state w' = state w /\ random w' = random w /\
  lastVideoTime w' = lastVideoTime w /\
  length (particles w') = length (particles w) /\
  forall i p, nth_error (particles w) i = Some p ->
    exists p', nth_error (particles w') i = Some p' /\
      type p' = type p /\ baseScale p' = baseScale p /\
      scatterVel p' = scatterVel p /\ targets p' = targets p.
Proof.
  revert w. induction deltas as [| d rest IH]; intros w; cbv zeta.
  - cbn [animates]. repeat split. intros i p H. exists p. repeat split.
    exact H.
  - cbn [animates].
    destruct (IH (animate slerp d w)) as (Hs & Hr & Ht & Hl & Hp).
    split; [rewrite Hs; reflexivity |].
    split; [rewrite Hr; reflexivity |].
    split; [rewrite Ht; reflexivity |].
    split.
    + rewrite Hl. unfold animate. cbn [particles].
      generalize 0%nat. induction (particles w) as [| q qs IHq];
        intros k; cbn [forEach_update length]; [reflexivity |].
      rewrite IHq. reflexivity.
    + intros i p H.
      destruct (Hp i (update slerp (state w) i d p)) as (p' & Hn & H1 & H2 & H3 & H4).
      { rewrite animate_nth, H. reflexivity. }
      destruct (update_frame slerp (state w) i d p)
        as (F1 & F2 & _ & _ & _ & F6).
      exists p'. split; [exact Hn |].
      rewrite H1, H2, H3, H4, F1, F2, F6, update_targets.
      repeat split.
Qed.

End Bulk.

(** ** Detection loop *)

Lemma on_hand_short (lm : list Landmark) (w : World) :
  (length lm < 21)%nat -> on_hand lm w = None.
Proof.
  intros Hlen.
  assert (H20 : nth_error lm 20 = None) by (apply nth_error_None; lia).
  unfold on_hand. rewrite H20.
  repeat match goal with
         | |- context [match nth_error ?l ?i with _ => _ end] =>
             destruct (nth_error l i)
         end; reflexivity.
Qed.

Lemma predictWebcam_cases (hl : bool) (t : R) (lms : list (list Landmark))
    (w w' : World) :
  predictWebcam hl t lms w = Some w' ->
  w' = w \/ w' = set_lastVideoTime t w \/
  exists lm, (21 <= length lm)%nat /\ w' = after_hand t lm w.
Proof.
  unfold predictWebcam. destruct hl; [| intros [= <-]; now left].
  destruct (Req_dec_T t (lastVideoTime w)); [intros [= <-]; now left |].
  destruct lms as [| lm rest]; [intros [= <-]; right; now left |].
  intros H. right. right. exists lm.
  destruct (le_lt_dec 21 (length lm)) as [Hlen | Hlen].
  - rewrite on_hand_eq in H by exact Hlen. injection H as <-. now split.
  - rewrite on_hand_short in H by exact Hlen. discriminate.
Qed.

(** A hand with fewer than 21 landmarks on a new frame makes the run
    throw, and only such a hand does; the detection loop is then not
    re-queued, whatever frames follow. *)
Theorem predictWebcam_throws_iff (t : R) (lm : list Landmark)
    (rest : list (list Landmark)) (w : World) :
  t <> lastVideoTime w ->
  (predictWebcam true t (lm :: rest) w = None <-> (length lm < 21)%nat) /\
  ((length lm < 21)%nat ->
   forall frames,
     predict_frames ((t, lm :: rest) :: frames) w = None).
Proof.
  intros Ht.
  assert (Hshort : (length lm < 21)%nat ->
                   predictWebcam true t (lm :: rest) w = None).
  { intros Hlen. unfold predictWebcam.
    destruct (Req_dec_T t (lastVideoTime w)); [contradiction |].
    apply on_hand_short, Hlen. }
  split; [split |].
  - intros H. destruct (le_lt_dec 21 (length lm)) as [Hlen | Hlen];
      [| exact Hlen].
    rewrite predictWebcam_hand in H by assumption. discriminate.
  - exact Hshort.
  - intros Hlen frames. cbn [predict_frames]. rewrite Hshort by exact Hlen.
    reflexivity.
Qed.

(** While no hand is detected the interaction state persists: over any
    number of frames without a hand the loop keeps running and [STATE]
    (mode, focus target, pointer signal), the particles and the random
    source stay exactly as they were. *)
Theorem no_hand_persists (frames : list (R * list (list Landmark)))
    (w : World) :
  Forall (fun fr => snd fr = []) frames ->
  exists w', predict_frames frames w = Some w' /\
    state w' = state w /\ particles w' = particles w /\
    random w' = random w /\ mainGroup_rotation w' = mainGroup_rotation w.
Proof.
  intros H. revert w. induction H as [| [t lms] rest Hfr _ IH]; intros w.
  - exists w. repeat split.
  - cbn in Hfr. subst lms. cbn [predict_frames].
    unfold predictWebcam.
    destruct (Req_dec_T t (lastVideoTime w)).
    + apply IH.
    + destruct (IH (set_lastVideoTime t w)) as (w' & Hw & Hs & Hp & Hr & Hg).
      exists w'. repeat split; assumption.
Qed.

(** No re-roll: once a focus target is set in mode FOCUS, any number of
    further frames showing a pinching hand keep the mode FOCUS and the
    same focus target, and take no random draw. *)
Theorem pinch_frames_keep_target
    (frames : list (R * list (list Landmark))) (w : World) (tp : nat) :
  mode (state w) = FOCUS -> targetPhoto (state w) = Some tp ->
  Forall (fun fr => exists lm rest,
            snd fr = lm :: rest /\ (21 <= length lm)%nat /\
            hand_pinchDist lm < 0.05) frames ->
  exists w', predict_frames frames w = Some w' /\
    mode (state w') = FOCUS /\ targetPhoto (state w') = Some tp /\
    random w' = random w /\ particles w' = particles w.
Proof.
  intros Hm Htp H. revert w Hm Htp.
  induction H as [| [t lms] more Hfr _ IH]; intros w Hm Htp.
  - exists w. repeat split; assumption.
  - destruct Hfr as (lm & rest & E & Hlen & Hp). cbn in E. subst lms.
    cbn [predict_frames].
    destruct (Req_dec_T t (lastVideoTime w)) as [Et | Et].
    + unfold predictWebcam.
      destruct (Req_dec_T t (lastVideoTime w)); [| contradiction].
      apply IH; assumption.
    + rewrite predictWebcam_hand by assumption.
      destruct (after_hand_pinch_keep t lm w tp Htp Hp) as (Hm' & Htp' & Hr).
      destruct (after_hand_frame t lm w) as (Hps & _).
      destruct (IH (after_hand t lm w) Hm' Htp')
        as (w' & Hw & H1 & H2 & H3 & H4).
      exists w'. rewrite H3, H4, Hr, Hps. repeat split; assumption.
Qed.

(** The pointer signal stays in range: for a palm landmark inside the
    image ([x] and [y] in [0, 1]) the left/right signal lies in [-1, 1]
    and the up/down signal in [-0.5, 0.5]; the centre of the image
    gives the signal (0, 0). *)
Theorem pointer_signal_range (t : R) (lm : list Landmark)
    (rest : list (list Landmark)) (w : World) :
  t <> lastVideoTime w -> (21 <= length lm)%nat ->
  0 <= lx (landmark lm 9) <= 1 -> 0 <= ly (landmark lm 9) <= 1 ->
  exists w', predictWebcam true t (lm :: rest) w = Some w' /\
    -1 <= hy (handRotation (state w')) <= 1 /\
    -0.5 <= hx (handRotation (state w')) <= 0.5 /\
    (lx (landmark lm 9) = 0.5 -> hy (handRotation (state w')) = 0) /\
    (ly (landmark lm 9) = 0.5 -> hx (handRotation (state w')) = 0).
Proof.
  intros Ht Hlen Hx Hy. exists (after_hand t lm w).
  split; [apply predictWebcam_hand; assumption |].
  assert (E : handRotation (state (after_hand t lm w)) =
              mkHandRotation ((ly (landmark lm 9) - 0.5) * 1)
                             ((lx (landmark lm 9) - 0.5) * 2)).
  { unfold after_hand. destruct (gesture_logic _ _ _ _ _). reflexivity. }
  rewrite E. cbn [hx hy]. repeat split; intros; lra.
Qed.

(** ** The focus target refers to a photo *)

Lemma pick_In (photos : list nat) (u : R) (id : nat) :
  pick photos u = Some id -> In id photos.
Proof.
  unfold pick. destruct (Math_floor (u * INR (length photos)) <? 0)%Z;
    [discriminate |].
  apply nth_error_In.
Qed.

Lemma after_hand_target_cases (t : R) (lm : list Landmark) (w : World) :
  let tp' := targetPhoto (state (after_hand t lm w)) in
  tp' = targetPhoto (state w) \/ tp' = None \/
  tp' = pick (photos_of (particles w)) (draw (random w) 0).
Proof.
  unfold after_hand, gesture_logic.
  cbn [particles state random set_lastVideoTime].
  destruct (Rlt_dec (hand_pinchDist lm) 0.05);
    [destruct (targetPhoto (state w)) eqn:E;
     [| destruct (0 <? length (photos_of (particles w)))%nat]
    | destruct (Rlt_dec (hand_avgTipDist lm) 0.25);
      [| destruct (Rgt_dec (hand_avgTipDist lm) 0.4)]];
    cbn; auto.
Qed.

Section FocusInvariant.

Variable slerp : Euler -> Euler -> R -> Euler.

(** The focus target, when set, is always the index of a PHOTO
    particle: the property holds before any content is generated and is
    kept by every pass of [animate], by every run of [predictWebcam]
    that returns, and by the upload callback. *)
Theorem focus_ok_invariant (w : World) :
  focus_ok w ->
  (forall delta, focus_ok (animate slerp delta w)) /\
  (forall hl t lms w', predictWebcam hl t lms w = Some w' -> focus_ok w') /\
  focus_ok (upload_onload w) /\
  (forall g, focus_ok (world_start g)).
Proof.
  intros Hok. split; [| split; [| split]].
  - intros delta. unfold focus_ok in *. rewrite animate_state.
    destruct (targetPhoto (state w)) as [i |]; [| exact I].
    destruct Hok as (p & Hn & Hty).
    exists (update slerp (state w) i delta p).
    split; [rewrite animate_nth, Hn; reflexivity |].
    destruct (update_frame slerp (state w) i delta p) as (F & _).
    rewrite F. exact Hty.
  - intros hl t lms w' H.
    destruct (predictWebcam_cases _ _ _ _ _ H) as [E | [E | (lm & _ & E)]];
      subst w'; try exact Hok.
    unfold focus_ok.
    destruct (after_hand_frame t lm w) as (Hps & _). rewrite Hps.
    destruct (after_hand_target_cases t lm w) as [E | [E | E]];
      cbv zeta in E; rewrite E.
    + exact Hok.
    + exact I.
    + destruct (pick (photos_of (particles w)) (draw (random w) 0))
        as [id |] eqn:Ep; [| exact I].
      apply photos_of_spec. eapply pick_In. exact Ep.
  - unfold focus_ok in *.
    destruct (upload_onload_state w) as [_ Ht]. rewrite Ht.
    destruct (targetPhoto (state w)) as [i |]; [| exact I].
    destruct Hok as (p & Hn & Hty). exists p. split; [| exact Hty].
    apply upload_onload_old. exact Hn.
  - intros g. exact I.
Qed.

End FocusInvariant.

(** ** Photos eligible for focusing *)

(** An upload appends exactly one particle, of type PHOTO, and thereby
    makes exactly one more photo eligible as focus target: the new
    particle's index is added at the end of the list of photos. *)
Theorem upload_adds_photo (w : World) :
  let w' := upload_onload w in
  length (particles w') = S (length (particles w)) /\
  (exists p, nth_error (particles w') (length (particles w)) = Some p /\
             type p = PHOTO /\ baseScale p = mkVector3 1 1 1) /\
  photos_of (particles w') =
    photos_of (particles w) ++ [length (particles w)] /\
  handRotation (state w') = handRotation (state w).
Proof.
  cbv zeta. rewrite upload_onload_eq, addPhotoToScene_eq. cbv zeta.
  cbn [particles set_state state handRotation].
  rewrite Particle_new_eq. cbv zeta. cbn [fst].
  split; [rewrite length_app; cbn [length]; lia |].
  split; [| split; [| reflexivity]].
  - eexists. split.
    + rewrite nth_error_app2, Nat.sub_diag by lia. reflexivity.
    + split; reflexivity.
  - rewrite photos_of_snoc. reflexivity.
Qed.

(** ** Content generation at load time *)

Lemma advance_advance (a b : nat) (g : Rng) :
  advance a (advance b g) = advance (a + b) g.
Proof. unfold advance. cbn [stream cursor]. f_equal. lia. Qed.

Lemma ornament_iteration_spec (w : World) :
  valid_rng (random w) ->
  exists p g',
    ornament_iteration w =
      set_random g' (set_particles (particles w ++ [p]) w) /\
    valid_rng g' /\ ornament_made p /\
    (type p = CANDY <-> 0.85 <= draw (random w) 0).
Proof.
  intros Hg.
  pose proof (valid_rng_draw (random w) 0 Hg) as H0.
  pose proof (valid_rng_draw (random w) 1 Hg) as H1.
  assert (V : forall k, valid_rng (advance k (random w)))
    by (intros k; apply valid_rng_advance, Hg).
  unfold ornament_iteration, Math_random. cbv beta iota.
  change (stream (random w) (cursor (random w))) with (draw (random w) 0).
  destruct (Rlt_dec (draw (random w) 0) 0.3) as [Ha | Ha];
    [| destruct (Rlt_dec (draw (random w) 0) 0.5) as [Hb | Hb];
       [| destruct (Rlt_dec (draw (random w) 0) 0.7) as [Hc | Hc];
          [| destruct (Rlt_dec (draw (random w) 0) 0.85) as [Hd | Hd]]]];
    cbn [stream cursor];
    change (stream (random w) (S (cursor (random w))))
      with (draw (random w) 1);
    rewrite addMesh_eq; cbn [snd random set_random];
    rewrite Particle_new_eq; cbv zeta; cbn [fst];
    (eexists; eexists; split; [reflexivity |]);
    (split; [apply valid_rng_advance;
             first [exact (V 2%nat) | exact (V 1%nat)] |]);
    (split; [| split; intros; try discriminate; try reflexivity;
                      try lra; exfalso; lra]);
    unfold ornament_made;
    cbn [type baseScale mesh scale position scatterPos setScalar
         Object3D_new].
  - split; [left; reflexivity |].
    split; [| reflexivity].
    exists (0.5 + draw (random w) 1 * 0.5).
    repeat split; try lra. discriminate.
  - split; [left; reflexivity |].
    split; [| reflexivity].
    exists (0.4 + draw (random w) 1 * 0.4).
    repeat split; try lra. discriminate.
  - split; [left; reflexivity |].
    split; [| reflexivity].
    exists 1. repeat split; lra.
  - split; [left; reflexivity |].
    split; [| reflexivity].
    exists 1. repeat split; lra.
  - split; [right; reflexivity |].
    split; [| reflexivity].
    exists 1. repeat split; lra.
Qed.

Lemma ornaments_loop_spec (n : nat) (w : World) :
  valid_rng (random w) ->
  exists l g',
    ornaments_loop n w = set_random g' (set_particles (particles w ++ l) w) /\
    length l = n /\ Forall ornament_made l /\ valid_rng g'.
Proof.
  revert w. induction n as [| n IH]; intros w Hg; cbn [ornaments_loop].
  - exists [], (random w). rewrite app_nil_r. destruct w.
    split; [reflexivity |]. split; [reflexivity |].
    split; [apply Forall_nil | exact Hg].
  - destruct (ornament_iteration_spec w Hg) as (p & g1 & E & V1 & Hp & _).
    rewrite E.
    destruct (IH (set_random g1 (set_particles (particles w ++ [p]) w)) V1)
      as (l & g' & E' & Hlen & Hall & V').
    exists (p :: l), g'. rewrite E'.
    cbn [particles set_random set_particles].
    rewrite <- app_assoc. cbn [app length].
    split; [reflexivity |]. split; [lia |].
    split; [apply Forall_cons; assumption | exact V'].
Qed.

(** Every iteration of the ornament loop appends exactly one particle
    and leaves the earlier ones alone.  The new particle is a CANDY
    exactly when the type draw is at least 0.85, an ORNAMENT otherwise;
    its scale is the same on all three axes, between 0.4 and 1, and is
    also its base scale; it stands at its scatter position.  After [n]
    iterations [n] such particles have been appended and [STATE] is
    untouched. *)
Theorem ornaments_loop_adds (n : nat) (w : World) :
  valid_rng (random w) ->
  (exists p,
     particles (ornament_iteration w) = particles w ++ [p] /\
     ornament_made p /\
     (type p = CANDY <-> 0.85 <= draw (random w) 0)) /\
  (exists l,
     particles (ornaments_loop n w) = particles w ++ l /\
     length l = n /\ Forall ornament_made l) /\
  state (ornaments_loop n w) = state w /\
  valid_rng (random (ornaments_loop n w)).
Proof.
  intros Hg. split; [| split; [| split]].
  - destruct (ornament_iteration_spec w Hg) as (p & g1 & E & _ & Hp & Hc).
    exists p. rewrite E. repeat split; try apply Hp; apply Hc.
  - destruct (ornaments_loop_spec n w Hg) as (l & g' & E & Hlen & Hall & _).
    exists l. rewrite E. repeat split; assumption.
  - destruct (ornaments_loop_spec n w Hg) as (l & g' & E & _).
    rewrite E. reflexivity.
  - destruct (ornaments_loop_spec n w Hg) as (l & g' & E & _ & _ & V).
    rewrite E. exact V.
Qed.

Lemma dustPos_fill_S (n : nat) (g : Rng) :
  dustPos_fill (S n) g =
  ((draw g 0 - 0.5) * 60 :: fst (dustPos_fill n (advance 1 g)),
   snd (dustPos_fill n (advance 1 g))).
Proof.
  cbn [dustPos_fill]. unfold bind, Math_random, ret.
  change (mkRng (stream g) (S (cursor g))) with (advance 1 g).
  destruct (dustPos_fill n (advance 1 g)). reflexivity.
Qed.

Lemma dustPos_fill_spec (n : nat) (g : Rng) :
  valid_rng g ->
  length (fst (dustPos_fill n g)) = n /\
  Forall (fun x => -30 <= x <= 30) (fst (dustPos_fill n g)) /\
  snd (dustPos_fill n g) = advance n g.
Proof.
  revert g. induction n as [| n IH]; intros g Hg.
  - cbn [dustPos_fill ret fst snd length]. destruct g.
    split; [reflexivity |]. split; [apply Forall_nil | reflexivity].
  - rewrite dustPos_fill_S. cbn [fst snd length].
    destruct (IH _ (valid_rng_advance g 1 Hg)) as (Hlen & Hall & Hg').
    split; [rewrite Hlen; reflexivity |]. split.
    + apply Forall_cons; [| exact Hall].
      pose proof (valid_rng_draw g 0 Hg) as H0. lra.
    + rewrite Hg', advance_advance. f_equal. lia.
Qed.

(** The dust buffer holds [dustCount * 3 = 7500] coordinates, every one
    of them between -30 and 30: the cloud fills a cube of side 60
    around the origin.  Filling it takes one draw per coordinate. *)
Theorem dust_buffer_range (g : Rng) :
  valid_rng g ->
  let dustPos := fst (dustPos_fill (dustCount * 3) g) in
  Z.of_nat (length dustPos) = 7500%Z /\
  Forall (fun x => -30 <= x <= 30) dustPos /\
  snd (dustPos_fill (dustCount * 3) g) = advance (dustCount * 3) g.
Proof.
  intros Hg dustPos. subst dustPos.
  destruct (dustPos_fill_spec (dustCount * 3) g Hg) as (Hlen & Hall & Hs).
  split; [rewrite Hlen; reflexivity |]. split; assumption.
Qed.

Lemma ornament_made_not_photo (p : Particle) :
  ornament_made p -> PType_eqb (type p) PHOTO = false.
Proof. intros [[E | E] _]; rewrite E; reflexivity. Qed.

Lemma photos_of_ornaments (l : list Particle) :
  Forall ornament_made l -> photos_of l = [].
Proof.
  induction l as [| p l IH] using rev_ind; intros H; [reflexivity |].
  apply Forall_app in H. destruct H as [Hl Hp].
  rewrite photos_of_snoc, IH by exact Hl.
  rewrite ornament_made_not_photo by (inversion Hp; assumption).
  reflexivity.
Qed.

Lemma init_scene_eq (g : Rng) :
  valid_rng g ->
  exists l photo g',
    fst (init_scene g) =
      mkWorld STATE_init (l ++ [photo]) Euler_zero Euler_zero (-1) g' /\
    length l = 1500%nat /\ Forall ornament_made l /\
    type photo = PHOTO /\ valid_rng g'.
Proof.
  intros Hg. unfold init_scene.
  destruct (ornaments_loop_spec 1500 (world_start g) Hg)
    as (l & g0 & E & Hlen & Hall & V0).
  rewrite E. cbn [random set_random].
  destruct (dustPos_fill_spec (dustCount * 3) g0 V0) as (_ & _ & Hs).
  destruct (dustPos_fill (dustCount * 3) g0) as [dustPos g1].
  cbn [snd] in Hs. subst g1. cbn [fst].
  rewrite addPhotoToScene_eq. cbv zeta.
  cbn [state particles mainGroup_rotation dustSystem_rotation lastVideoTime
       random set_random set_particles world_start app].
  eexists l, _, _. split; [reflexivity |].
  split; [exact Hlen |]. split; [exact Hall |]. split.
  - rewrite Particle_new_eq. reflexivity.
  - apply valid_rng_advance, valid_rng_advance, V0.
Qed.

(** The scene after load: 1501 particles, namely 1500 made by the
    ornament loop (none of them a PHOTO) followed by the initial photo
    at index 1500, which is the only photo eligible as focus target;
    [STATE] still has its initial value (mode TREE, no focus target). *)
Theorem init_scene_population (g : Rng) :
  valid_rng g ->
  let w := fst (init_scene g) in
  length (particles w) = 1501%nat /\
  photos_of (particles w) = [1500%nat] /\
  (forall i p, (i < 1500)%nat -> nth_error (particles w) i = Some p ->
               ornament_made p) /\
  (exists p, nth_error (particles w) 1500 = Some p /\ type p = PHOTO) /\
  state w = STATE_init /\ valid_rng (random w).
Proof.
  intros Hg w. subst w.
  destruct (init_scene_eq g Hg) as (l & photo & g' & E & Hlen & Hall & Hty & V).
  rewrite E. cbn [particles state random].
  split; [rewrite length_app, Hlen; reflexivity |].
  split; [| split; [| split; [| split; [reflexivity | exact V]]]].
  - rewrite photos_of_snoc, photos_of_ornaments by exact Hall.
    rewrite Hty, Hlen. reflexivity.
  - intros i p Hi Hn. rewrite nth_error_app1 in Hn by lia.
    rewrite Forall_forall in Hall. apply Hall.
    eapply nth_error_In. exact Hn.
  - exists photo. split; [| exact Hty].
    rewrite nth_error_app2 by lia. rewrite Hlen, Nat.sub_diag. reflexivity.
Qed.

(** The first pinch after load focuses the initial photo: on the scene
    as generated, a new frame with a pinching hand sets the mode to
    FOCUS and the focus target to particle 1500, whatever the draw. *)
Theorem first_pinch_focuses_initial_photo (g : Rng) (t : R)
    (lm : list Landmark) (rest : list (list Landmark)) :
  valid_rng g -> t <> -1 -> (21 <= length lm)%nat ->
  hand_pinchDist lm < 0.05 ->
  exists w',
    predictWebcam true t (lm :: rest) (fst (init_scene g)) = Some w' /\
    mode (state w') = FOCUS /\ targetPhoto (state w') = Some 1500%nat.
Proof.
  intros Hg Ht Hlen Hp.
  destruct (init_scene_eq g Hg)
    as (l & photo & g' & E & Hl & Hall & Hty & V0).
  assert (Hlast : lastVideoTime (fst (init_scene g)) = -1)
    by (rewrite E; reflexivity).
  assert (Hst : state (fst (init_scene g)) = STATE_init)
    by (rewrite E; reflexivity).
  assert (V : valid_rng (random (fst (init_scene g))))
    by (rewrite E; exact V0).
  assert (Hph : photos_of (particles (fst (init_scene g))) = [1500%nat]).
  { rewrite E. cbn [particles].
    rewrite photos_of_snoc, photos_of_ornaments by exact Hall.
    rewrite Hty, Hl. reflexivity. }
  clear E. revert Hlast Hst V Hph.
  generalize (fst (init_scene g)). intros w0 Hlast Hst V Hph.
  exists (after_hand t lm w0).
  split; [apply predictWebcam_hand; [rewrite Hlast; exact Ht | exact Hlen] |].
  destruct (after_hand_mode_target t lm w0) as [Hm Htp].
  rewrite Hm, Htp. unfold gesture_logic.
  destruct (Rlt_dec (hand_pinchDist lm) 0.05); [| contradiction].
  rewrite Hst, Hph.
  cbn [STATE_init targetPhoto length Nat.ltb Nat.leb bind Math_random ret
       fst mode].
  split; [reflexivity |].
  apply pick_singleton. exact (valid_rng_draw (random w0) 0 V).
Qed.

(** ** The further properties at sample inputs *)

Lemma world_focus_ok : focus_ok world_focus.
Proof.
  unfold focus_ok. destruct world_focus_state as [_ Ht]. rewrite Ht.
  unfold world_focus.
  destruct (after_hand_frame 1 hand_pinch world_photo) as (Hps & _).
  rewrite Hps, world_photo_eq. cbv zeta. cbn [particles nth_error].
  eexists. split; [reflexivity |].
  rewrite Particle_new_eq. reflexivity.
Qed.

Lemma pinch_frames_sample :
  Forall (fun fr : R * list (list Landmark) =>
            exists lm rest,
              snd fr = lm :: rest /\ (21 <= length lm)%nat /\
              hand_pinchDist lm < 0.05)
         [(2, [hand_pinch]); (3, [hand_pinch])].
Proof.
  repeat apply Forall_cons; try apply Forall_nil;
    exists hand_pinch, []; (split; [reflexivity |]);
    (split; [exact hand_pinch_21 | exact hand_pinch_is_pinch]).
Qed.

Lemma hand_pinch_palm :
  0 <= lx (landmark hand_pinch 9) <= 1 /\
  0 <= ly (landmark hand_pinch 9) <= 1.
Proof.
  unfold landmark, hand_pinch. cbn [repeat app nth lx ly]. lra.
Qed.

Lemma ornament_075_at_rest :
  position (mesh ornament_075) = scatterPos ornament_075.
Proof. unfold ornament_075. rewrite Particle_new_eq. reflexivity. Qed.

Lemma Particle_new_bounds_witness :
  valid_rng rng_075 /\
  ez (rotation (mesh (fst (Particle_new Object3D_new ORNAMENT rng_075)))) = 0.
Proof.
  assert (V : valid_rng rng_075) by (apply valid_const_rng; lra).
  split; [exact V |].
  exact (proj2 (proj2 (proj1 (proj2 (proj2 (proj2 (proj2 (proj2
           (Particle_new_bounds Object3D_new ORNAMENT rng_075 V))))))))).
Defined.

Lemma treePos_cone_box_witness :
  valid_rng (const_rng 0.5) /\
  -13 <= vx (treePos (fst (calculatePositions candy_05 (const_rng 0.5))))
    <= 13.
Proof.
  split; [exact valid_rng_half |].
  exact (proj1 (proj2 (treePos_cone_box candy_05 (const_rng 0.5)
                         valid_rng_half))).
Defined.

Lemma scatterPos_polar_witness :
  valid_rng (const_rng 0.5) /\
  vz (scatterPos (fst (calculatePositions candy_05 (const_rng 0.5)))) =
  (8 + draw (const_rng 0.5) 2 * 12) * (2 * draw (const_rng 0.5) 1 - 1).
Proof.
  split; [exact valid_rng_half |].
  exact (proj1 (scatterPos_polar candy_05 (const_rng 0.5) valid_rng_half)).
Defined.

Lemma candy_05_scatterPos :
  scatterPos candy_05 =
  scatterPos (fst (calculatePositions candy_05 (advance 3 (const_rng 0.5)))).
Proof.
  rewrite calculatePositions_eq. unfold candy_05.
  rewrite Particle_new_eq. reflexivity.
Qed.

Lemma candy_05_at_rest : position (mesh candy_05) = scatterPos candy_05.
Proof. unfold candy_05. rewrite Particle_new_eq. reflexivity. Qed.

Lemma focus_pushback_witness :
  mode (state world_pushback) = FOCUS /\
  targetPhoto (state world_pushback) <> Some 1%nat /\
  nth_error (particles world_pushback) 1 = Some candy_05 /\
  valid_rng (advance 3 (const_rng 0.5)) /\
  scatterPos candy_05 =
    scatterPos (fst (calculatePositions candy_05
                       (advance 3 (const_rng 0.5)))) /\
  position (mesh candy_05) = scatterPos candy_05 /\
  position (mesh (nth 1 (particles (animates Euler_lerp [0.016; 0.017]
                                             world_pushback)) candy_05)) =
  multiplyScalar (scatterPos candy_05) (1.5 - 0.5 * 0.95 ^ 2).
Proof.
  assert (Hnt : targetPhoto (state world_pushback) <> Some 1%nat)
    by discriminate.
  assert (V : valid_rng (advance 3 (const_rng 0.5)))
    by (apply valid_rng_advance, valid_rng_half).
  split; [reflexivity |]. split; [exact Hnt |]. split; [reflexivity |].
  split; [exact V |]. split; [exact candy_05_scatterPos |].
  split; [exact candy_05_at_rest |].
  exact (proj1 (proj2 (proj2
           (focus_pushback Euler_lerp world_pushback 1 candy_05
              [0.016; 0.017] candy_05 (advance 3 (const_rng 0.5))
              eq_refl Hnt eq_refl V candy_05_scatterPos))
           candy_05_at_rest)).
Defined.

Lemma scatter_passes_witness :
  mode (state world_scatter) = SCATTER /\
  nth_error (particles world_scatter) 0 = Some ornament_075 /\
  position (mesh ornament_075) = scatterPos ornament_075 /\
  position (mesh (nth 0 (particles (animates Euler_lerp [0.016; 0.017]
                                             world_scatter))
                      ornament_075)) =
  scatterPos ornament_075.
Proof.
  split; [reflexivity |]. split; [reflexivity |].
  split; [exact ornament_075_at_rest |].
  exact (proj2 (proj2 (proj2 (proj2
           (scatter_passes Euler_lerp world_scatter 0 ornament_075
              [0.016; 0.017] eq_refl eq_refl)))) ornament_075_at_rest).
Defined.

Lemma scale_converges_witness :
  (mode (state world_tree) = TREE \/ mode (state world_tree) = FOCUS) /\
  nth_error (particles world_tree) 1 = Some candy_05 /\
  baseScale (nth 1 (particles (animates Euler_lerp [0.016; 0.017]
                                        world_tree)) candy_05) =
  baseScale candy_05.
Proof.
  split; [left; reflexivity |]. split; [reflexivity |].
  exact (proj1 (proj2 (scale_converges Euler_lerp world_tree 1 candy_05
                         [0.016; 0.017] (or_introl eq_refl) eq_refl))).
Defined.

Lemma mainGroup_follows_pointer_witness :
  mode (state world_scatter) <> TREE /\
  ey (mainGroup_rotation (animates Euler_lerp [0.016; 0.017] world_scatter))
    - hy (handRotation (state world_scatter)) =
  0.95 ^ 2 * (ey (mainGroup_rotation world_scatter)
              - hy (handRotation (state world_scatter))).
Proof.
  assert (H : mode (state world_scatter) <> TREE) by discriminate.
  split; [exact H |].
  exact (proj2 (proj2 (mainGroup_follows_pointer Euler_lerp world_scatter
                         [0.016; 0.017])) H).
Defined.

Lemma tree_idle_spin_settles_witness :
  mode (state world_tree) = TREE /\
  ey (mainGroup_rotation (animates Euler_lerp (repeat 0.016 3) world_tree))
    - (hy (handRotation (state world_tree)) + 2 * 0.016) =
  0.95 ^ 3 * (ey (mainGroup_rotation world_tree)
              - (hy (handRotation (state world_tree)) + 2 * 0.016)).
Proof.
  split; [reflexivity |].
  exact (proj2 (tree_idle_spin_settles Euler_lerp world_tree 0.016 3
                  eq_refl)).
Defined.

Lemma animates_frame_witness :
  nth_error (particles world_tree) 1 = Some candy_05 /\
  exists p',
    nth_error (particles (animates Euler_lerp [0.016; 0.017] world_tree)) 1 =
      Some p' /\
    type p' = type candy_05.
Proof.
  split; [reflexivity |].
  destruct (proj2 (proj2 (proj2 (proj2
              (animates_frame Euler_lerp world_tree [0.016; 0.017]))))
              1%nat candy_05 eq_refl) as (p' & Hn & Hty & _).
  exists p'. split; [exact Hn | exact Hty].
Defined.

Lemma predictWebcam_throws_iff_witness :
  1 <> lastVideoTime world_photo /\
  predictWebcam true 1 [[mkLandmark 0.5 0.5 0]] world_photo = None.
Proof.
  split; [exact world_photo_lastVideoTime |].
  apply (proj1 (predictWebcam_throws_iff 1 [mkLandmark 0.5 0.5 0] []
                  world_photo world_photo_lastVideoTime)).
  cbn [length]. lia.
Defined.

Lemma no_hand_persists_witness :
  Forall (fun fr : R * list (list Landmark) => snd fr = [])
         [(1, []); (2, [])] /\
  exists w', predict_frames [(1, []); (2, [])] world_focus = Some w' /\
    state w' = state world_focus.
Proof.
  assert (H : Forall (fun fr : R * list (list Landmark) => snd fr = [])
                     [(1, []); (2, [])])
    by (repeat apply Forall_cons; try apply Forall_nil; reflexivity).
  split; [exact H |].
  destruct (no_hand_persists [(1, []); (2, [])] world_focus H)
    as (w' & Hw & Hs & _).
  exists w'. split; [exact Hw | exact Hs].
Defined.

Lemma pinch_frames_keep_target_witness :
  mode (state world_focus) = FOCUS /\
  targetPhoto (state world_focus) = Some 0%nat /\
  exists w',
    predict_frames [(2, [hand_pinch]); (3, [hand_pinch])] world_focus =
      Some w' /\
    targetPhoto (state w') = Some 0%nat.
Proof.
  destruct world_focus_state as [Hm Ht].
  split; [exact Hm |]. split; [exact Ht |].
  destruct (pinch_frames_keep_target [(2, [hand_pinch]); (3, [hand_pinch])]
              world_focus 0 Hm Ht pinch_frames_sample)
    as (w' & Hw & _ & Htp & _).
  exists w'. split; [exact Hw | exact Htp].
Defined.

Lemma pointer_signal_range_witness :
  1 <> lastVideoTime world_photo /\ (21 <= length hand_pinch)%nat /\
  0 <= lx (landmark hand_pinch 9) <= 1 /\
  0 <= ly (landmark hand_pinch 9) <= 1 /\
  exists w', predictWebcam true 1 [hand_pinch] world_photo = Some w' /\
    -1 <= hy (handRotation (state w')) <= 1.
Proof.
  split; [exact world_photo_lastVideoTime |].
  split; [exact hand_pinch_21 |].
  split; [exact (proj1 hand_pinch_palm) |].
  split; [exact (proj2 hand_pinch_palm) |].
  destruct (pointer_signal_range 1 hand_pinch [] world_photo
              world_photo_lastVideoTime hand_pinch_21
              (proj1 hand_pinch_palm) (proj2 hand_pinch_palm))
    as (w' & Hw & Hy & _).
  exists w'. split; [exact Hw | exact Hy].
Defined.

Lemma focus_ok_invariant_witness :
  focus_ok world_focus /\ focus_ok (upload_onload world_focus).
Proof.
  split; [exact world_focus_ok |].
  exact (proj1 (proj2 (proj2 (focus_ok_invariant Euler_lerp world_focus
                                world_focus_ok)))).
Defined.

Lemma ornaments_loop_adds_witness :
  valid_rng (random (world_start (const_rng 0.5))) /\
  exists l,
    particles (ornaments_loop 3 (world_start (const_rng 0.5))) =
      particles (world_start (const_rng 0.5)) ++ l /\
    length l = 3%nat.
Proof.
  split; [exact valid_rng_half |].
  destruct (proj1 (proj2 (ornaments_loop_adds 3
                            (world_start (const_rng 0.5)) valid_rng_half)))
    as (l & E & Hlen & _).
  exists l. split; [exact E | exact Hlen].
Defined.

Lemma dust_buffer_range_witness :
  valid_rng (const_rng 0.5) /\
  Forall (fun x => -30 <= x <= 30)
         (fst (dustPos_fill (dustCount * 3) (const_rng 0.5))).
Proof.
  split; [exact valid_rng_half |].
  exact (proj1 (proj2 (dust_buffer_range (const_rng 0.5) valid_rng_half))).
Defined.

Lemma init_scene_population_witness :
  valid_rng (const_rng 0.5) /\
  photos_of (particles (fst (init_scene (const_rng 0.5)))) = [1500%nat].
Proof.
  split; [exact valid_rng_half |].
  exact (proj1 (proj2 (init_scene_population (const_rng 0.5)
                         valid_rng_half))).
Defined.

Lemma first_pinch_focuses_initial_photo_witness :
  valid_rng (const_rng 0.5) /\ 1 <> -1 /\ (21 <= length hand_pinch)%nat /\
  hand_pinchDist hand_pinch < 0.05 /\
  exists w',
    predictWebcam true 1 [hand_pinch] (fst (init_scene (const_rng 0.5))) =
      Some w' /\
    targetPhoto (state w') = Some 1500%nat.
Proof.
  assert (H1 : 1 <> -1) by lra.
  split; [exact valid_rng_half |]. split; [exact H1 |].
  split; [exact hand_pinch_21 |]. split; [exact hand_pinch_is_pinch |].
  destruct (first_pinch_focuses_initial_photo (const_rng 0.5) 1 hand_pinch
              [] valid_rng_half H1 hand_pinch_21 hand_pinch_is_pinch)
    as (w' & Hw & _ & Ht).
  exists w'. split; [exact Hw | exact Ht].
Defined.
